(** * kingpin.actors.aws.api_call_queue: the serialized, adaptively paced
      AWS call dispatcher.

    The development follows [src/kingpin/actors/aws/api_call_queue.py]:

    - the backoff controller ([decrease_delay], [increase_delay]) over the
      [ApiCallQueue] record;
    - the protected call [_call], a retry loop around [_thread];
    - the dispatcher loop [_process_queue] and the two halves of [call],
      split at its [yield result_queue.get()].

    The code base is Python 2 ([kingpin/utils.py] imports [httplib] and
    calls [os.environ.iteritems()]; the module has no
    [from __future__ import division]).  A delay is therefore a Python 2
    number: the int [0], the float [0.25], the int [30], and what [/= 2] and
    [*= 2] make of them, where [/] between two ints is floor division.
    Floats are modelled as rationals compared with [==]; the only floats a
    delay ever holds are the seven powers of two from 0.25 to 16
    ([reachable_delay_shape]), on which halving and doubling are exact. *)

From Stdlib Require Import QArith Qminmax Lqa ZArith Lia List String Bool.
From stdpp Require Import base option gmap.
Import ListNotations.

Local Open Scope Q_scope.

(** ** Python 2 numbers *)

Inductive PyNum : Type :=
| PyInt (z : Z)
| PyFloat (q : Q).

Definition value (x : PyNum) : Q :=
  match x with
  | PyInt z => inject_Z z
  | PyFloat q => q
  end.

(** [a == b]. *)
Definition py_eq (a b : PyNum) : bool := Qeq_bool (value a) (value b).

(** [max(a, b)] and [min(a, b)]: the first argument, unless the second is
    strictly greater (resp. smaller); the result is the argument itself,
    int or float as it was. *)
Definition py_max (a b : PyNum) : PyNum :=
  if Qlt_le_dec (value a) (value b) then b else a.

Definition py_min (a b : PyNum) : PyNum :=
  if Qlt_le_dec (value b) (value a) then b else a.

(** [a / b] in Python 2: floor division between two ints, float division
    otherwise. *)
Definition py_div (a b : PyNum) : PyNum :=
  match a, b with
  | PyInt x, PyInt y => PyInt (x / y)
  | _, _ => PyFloat (value a / value b)
  end.

(** [a * b]. *)
Definition py_mul (a b : PyNum) : PyNum :=
  match a, b with
  | PyInt x, PyInt y => PyInt (x * y)
  | _, _ => PyFloat (value a * value b)
  end.

(** ** The queue object *)

(** The attributes [__init__] sets that the controller reads and writes. *)
Record ApiCallQueue : Type := mkApiCallQueue {
  delay_min : PyNum;
  delay_max : PyNum;
  delay : PyNum;
  boto2_throttle_strings : list string
}.

Definition set_delay (self : ApiCallQueue) (d : PyNum) : ApiCallQueue :=
  {| delay_min := delay_min self;
     delay_max := delay_max self;
     delay := d;
     boto2_throttle_strings := boto2_throttle_strings self |}.

(** [ApiCallQueue.__init__]: lines 29-41. *)
Definition __init__ : ApiCallQueue :=
  {| delay_min := PyFloat 0.25;
     delay_max := PyInt 30;
     delay := PyInt 0;
     boto2_throttle_strings :=
       ["Throttling"; "Rate exceeded"; "reached max retries"]%string |}.

(** [decrease_delay], lines 110-117. *)
Definition decrease_delay (self : ApiCallQueue) : ApiCallQueue :=
  if py_eq (delay self) (PyInt 0) then self
  else if py_eq (delay self) (delay_min self) then set_delay self (PyInt 0)
  else
    let self1 := set_delay self (py_div (delay self) (PyInt 2)) in
    set_delay self1 (py_max (delay self1) (delay_min self1)).

(** [increase_delay], lines 119-124. *)
Definition increase_delay (self : ApiCallQueue) : ApiCallQueue :=
  if py_eq (delay self) (PyInt 0) then set_delay self (delay_min self)
  else
    let self1 := set_delay self (py_mul (delay self) (PyInt 2)) in
    set_delay self1 (py_min (delay self1) (delay_max self1)).

(** A finite sequence of controller operations. *)
Inductive BackoffOp : Type := Increase | Decrease.

Definition apply_op (self : ApiCallQueue) (op : BackoffOp) : ApiCallQueue :=
  match op with
  | Increase => increase_delay self
  | Decrease => decrease_delay self
  end.

Definition run_ops (ops : list BackoffOp) (self : ApiCallQueue) : ApiCallQueue :=
  fold_left apply_op ops self.

(** [n] successive calls of one operation. *)
Fixpoint repeat_op (f : ApiCallQueue -> ApiCallQueue) (n : nat)
    (self : ApiCallQueue) : ApiCallQueue :=
  match n with
  | O => self
  | S k => f (repeat_op f k self)
  end.

(** The delays seen after calls 1, 2, ..., n. *)
Definition delays_after (f : ApiCallQueue -> ApiCallQueue) (n : nat)
    (self : ApiCallQueue) : list Q :=
  map (fun k => value (delay (repeat_op f k self))) (seq 1 n).

(** The object once [increase_delay] has brought the delay to its cap:
    eight calls from [__init__]. *)
Definition at_cap : ApiCallQueue := repeat_op increase_delay 8 __init__.

(** The bounds of [__init__]. *)
Definition bounds_ok (s : ApiCallQueue) : Prop :=
  delay_min s = PyFloat 0.25 /\ delay_max s = PyInt 30.

(** The floats a delay can be. *)
Definition float_table : list Q := [0.25; 0.5; 1; 2; 4; 8; 16].

(** Find a rational in [float_table]. *)
Ltac find_in_table :=
  unfold float_table;
  repeat first [ apply List.Exists_cons_hd; lra | apply List.Exists_cons_tl ].

(** What a delay can be: an int from 0 to 30 or a float of the table. *)
Definition delay_shape (d : PyNum) : Prop :=
  match d with
  | PyInt z => (0 <= z <= 30)%Z
  | PyFloat q => List.Exists (Qeq q) float_table
  end.

(** ** Python values and exceptions *)

(** The exceptions the protected call can meet.  [BotoServerError] (boto2)
    carries [status], [reason], [error_code] and [message]; [error_code] and
    [message] may be [None].  [ClientError] (boto3) carries [response]:
    [code] is [response['Error']['Code']], and [None] when the response has
    no such entry, where the subscripts of line 102 raise [KeyError].
    [OtherBaseException] stands for the [BaseException]s that are not
    [Exception]s ([KeyboardInterrupt], [SystemExit], ...). *)
Inductive PyExc : Type :=
| BotoServerError (status : Z) (reason : string)
    (error_code : option string) (message : option string)
| ClientError (code : option string)
| InvalidCredentials (msg : string)
| OtherException (name : string)
| OtherBaseException (name : string).

(** The built-in exceptions that the code itself can raise. *)
Definition KeyError : PyExc := OtherException "KeyError".

Definition TypeError : PyExc := OtherException "TypeError".

#[warnings="-register-all"]
Inductive PyVal : Type :=
| VNone
| VInt (z : Z)
| VStr (s : string)
| VTuple (items : list PyVal)
| VExc (e : PyExc).

(** What a call does: return a value or raise. *)
Inductive Outcome : Type :=
| Returns (v : PyVal)
| Raises (e : PyExc).

(** [isinstance(e, Exception)] for an exception object. *)
Definition is_Exception (e : PyExc) : bool :=
  match e with
  | OtherBaseException _ => false
  | _ => true
  end.

(** What a coroutine suspended at [yield future] is resumed with when the
    future holds [o].  Tornado's runner sends a result in and throws an
    [Exception] in; an exception that is not an [Exception] it lets through
    to the IOLoop, and the coroutine is not resumed: such an outcome is
    [fatal] to the coroutine that waits for it. *)
Definition fatal (o : Outcome) : bool :=
  match o with
  | Returns _ => false
  | Raises e => negb (is_Exception e)
  end.

(** [isinstance(result, Exception)], line 48. *)
Definition isinstance_Exception (result : PyVal) : bool :=
  match result with
  | VExc e => is_Exception e
  | _ => false
  end.

(** Lines 48-50: [raise result] for an [Exception], [gen.Return(result)]
    for anything else. *)
Definition raise_or_return (result : PyVal) : Outcome :=
  match result with
  | VExc e => if is_Exception e then Raises e else Returns result
  | _ => Returns result
  end.

(** ['%s' % x] for a string or [None]. *)
Definition py_str (x : option string) : string :=
  match x with
  | Some s => s
  | None => "None"%string
  end.

(** [x in strings] for a string or [None] and a tuple of strings. *)
Definition py_in (x : option string) (strings : list string) : bool :=
  match x with
  | Some s => existsb (String.eqb s) strings
  | None => false
  end.

(** The test of line 74 and the one of line 102, as one predicate on the
    exception: the errors the protected call absorbs. *)
Definition is_throttling (strings : list string) (e : PyExc) : bool :=
  match e with
  | BotoServerError _ _ error_code _ => py_in error_code strings
  | ClientError (Some code) => String.eqb code "Throttling"
  | _ => false
  end.

(** Lines 89-96: what a boto2 error that is not a throttling one is raised
    as. *)
Definition translate_boto2 (status : Z) (reason : string)
    (error_code message : option string) : PyExc :=
  if (status =? 400)%Z && String.eqb reason "Bad Request" &&
     match error_code with None => true | Some _ => false end
  then InvalidCredentials "Access credentials have expired"
  else if (status =? 403)%Z
  then InvalidCredentials (py_str error_code ++ ": " ++ py_str message)
  else BotoServerError status reason error_code message.

(** ** The dispatcher *)

Section Dispatcher.

(** Whatever the submitted callables act on: the remote API and the rest of
    the process. *)
Variable World : Type.

(** An [api_function]: applied to its positional and keyword arguments it
    returns or raises, and changes the world. *)
Definition ApiFunction : Type :=
  list PyVal -> list (string * PyVal) -> World -> Outcome * World.

(** The tuple [(result_queue, api_function, args, kwargs)] of line 46; the
    [result_queue] object is named by its address in [result_queues]. *)
Record PendingCall : Type := mkPendingCall {
  result_queue : nat;
  api_function : ApiFunction;
  args : list PyVal;
  kwargs : list (string * PyVal)
}.

(** What the coroutines do, in the order they do it. *)
Inductive Event : Type :=
| EvEnqueue (chan : nat)
| EvDequeue (entry : PendingCall)
| EvThread (f : ApiFunction) (a : list PyVal) (k : list (string * PyVal))
    (o : Outcome)
| EvIncreaseDelay
| EvDecreaseDelay
| EvSleep (d : PyNum)
| EvPut (chan : nat) (result : PyVal)
| EvGet (chan : nat) (result : PyVal).

(** The object, the [tornado.queues.Queue]s it works with, and the log. *)
Record Machine : Type := mkMachine {
  self : ApiCallQueue;
  _queue : list PendingCall;
  result_queues : gmap nat (list PyVal);
  next_result_queue : nat;
  world : World;
  trace : list Event
}.

Definition set_self (m : Machine) (s : ApiCallQueue) : Machine :=
  {| self := s; _queue := _queue m; result_queues := result_queues m;
     next_result_queue := next_result_queue m; world := world m;
     trace := trace m |}.

Definition set_world (m : Machine) (w : World) : Machine :=
  {| self := self m; _queue := _queue m; result_queues := result_queues m;
     next_result_queue := next_result_queue m; world := w;
     trace := trace m |}.

Definition set_queue (m : Machine) (q : list PendingCall) : Machine :=
  {| self := self m; _queue := q; result_queues := result_queues m;
     next_result_queue := next_result_queue m; world := world m;
     trace := trace m |}.

Definition set_result_queues (m : Machine) (r : gmap nat (list PyVal))
    (n : nat) : Machine :=
  {| self := self m; _queue := _queue m; result_queues := r;
     next_result_queue := n; world := world m; trace := trace m |}.

Definition log (ev : Event) (m : Machine) : Machine :=
  {| self := self m; _queue := _queue m; result_queues := result_queues m;
     next_result_queue := next_result_queue m; world := world m;
     trace := trace m ++ [ev] |}.

(** A new [ApiCallQueue()]: empty queue, dispatcher spawned and waiting. *)
Definition new_machine (w : World) : Machine :=
  {| self := __init__; _queue := []; result_queues := ∅;
     next_result_queue := 0%nat; world := w; trace := [] |}.

(** [self.decrease_delay()] and [self.increase_delay()] as the protected
    call invokes them. *)
Definition call_decrease_delay (m : Machine) : Machine :=
  log EvDecreaseDelay (set_self m (decrease_delay (self m))).

Definition call_increase_delay (m : Machine) : Machine :=
  log EvIncreaseDelay (set_self m (increase_delay (self m))).

(** [yield gen.sleep(self.delay)]. *)
Definition sleep_delay (m : Machine) : Machine :=
  log (EvSleep (delay (self m))) m.

(** [_thread], lines 126-133: run the function on the executor and wait for
    what it returns or raises. *)
Definition _thread (function : ApiFunction) (a : list PyVal)
    (k : list (string * PyVal)) (m : Machine) : Outcome * Machine :=
  let (o, w) := function a k (world m) in
  (o, log (EvThread function a k o) (set_world m w)).

(** [_call], lines 64-108.  [fuel] bounds the attempts.  [None] is a call
    that hands nothing on: one still being retried when the fuel is spent,
    or one left suspended at the [yield] of line 68 because the callable
    raised a [BaseException] that is not an [Exception], which the runner
    does not throw into the coroutine ([fatal]).  A [ClientError] whose
    response has no [['Error']['Code']] makes line 102 raise [KeyError]
    inside the handler, which leaves [_call] before [decrease_delay()]. *)
Fixpoint _call (fuel : nat) (f : ApiFunction) (a : list PyVal)
    (k : list (string * PyVal)) (m : Machine) : option (Outcome * Machine) :=
  match fuel with
  | O => None
  | S fuel' =>
    let (o, m1) := _thread f a k m in
    match o with
    | Returns result => Some (Returns result, call_decrease_delay m1)
    | Raises (BotoServerError status reason error_code message) =>
      if py_in error_code (boto2_throttle_strings (self m1)) then
        _call fuel' f a k (sleep_delay (call_increase_delay m1))
      else
        Some (Raises (translate_boto2 status reason error_code message),
              call_decrease_delay m1)
    | Raises (ClientError None) => Some (Raises KeyError, m1)
    | Raises (ClientError (Some code)) =>
      if String.eqb code "Throttling" then
        _call fuel' f a k (sleep_delay (call_increase_delay m1))
      else Some (Raises (ClientError (Some code)), call_decrease_delay m1)
    | Raises (OtherBaseException name) => None
    | Raises e => Some (Raises e, m1)
    end
  end.

(** [result_queue.put(result)] on a [Queue(maxsize=1)]: [None] when the
    queue is full (the putter would wait) or is not there. *)
Definition result_queue_put (chan : nat) (result : PyVal) (m : Machine)
    : option Machine :=
  match result_queues m !! chan with
  | Some [] =>
    Some (log (EvPut chan result)
            (set_result_queues m (<[chan := [result]]> (result_queues m))
               (next_result_queue m)))
  | _ => None
  end.

(** Lines 56-59: the [try]/[except BaseException] around [_call], for the
    outcomes the coroutine is resumed with. *)
Definition caught (o : Outcome) : PyVal :=
  match o with
  | Returns result => result
  | Raises e => VExc e
  end.

(** One turn of the [while True] of [_process_queue], lines 55-62.  On an
    empty queue the dispatcher stays suspended in [self._queue.get()]. *)
Definition _process_queue_turn (fuel : nat) (m : Machine) : option Machine :=
  match _queue m with
  | [] => Some m
  | entry :: rest =>
    let m1 := log (EvDequeue entry) (set_queue m rest) in
    match _call fuel (api_function entry) (args entry) (kwargs entry) m1 with
    | None => None
    | Some (o, m2) =>
      match result_queue_put (result_queue entry) (caught o) m2 with
      | None => None
      | Some m3 =>
        Some (if Qlt_le_dec 0 (value (delay (self m3))) then sleep_delay m3
              else m3)
      end
    end
  end.

(** [_process_queue]: [turns] turns of the loop. *)
Fixpoint _process_queue (turns fuel : nat) (m : Machine) : option Machine :=
  match turns with
  | O => Some m
  | S turns' =>
    match _process_queue_turn fuel m with
    | None => None
    | Some m1 => _process_queue turns' fuel m1
    end
  end.

(** [call], lines 45-46: make the result queue, enqueue the entry, and
    suspend. *)
Definition call_submit (f : ApiFunction) (a : list PyVal)
    (k : list (string * PyVal)) (m : Machine) : nat * Machine :=
  let chan := next_result_queue m in
  let entry := mkPendingCall chan f a k in
  (chan,
   log (EvEnqueue chan)
     (set_queue
        (set_result_queues m (<[chan := []]> (result_queues m)) (S chan))
        (_queue m ++ [entry]))).

(** [call], lines 47-50: resumed with the result, raise it or return it.
    [None] while the result queue is empty. *)
Definition call_resume (chan : nat) (m : Machine) : option (Outcome * Machine) :=
  match result_queues m !! chan with
  | Some (result :: rest) =>
    let m1 := log (EvGet chan result)
                (set_result_queues m (<[chan := rest]> (result_queues m))
                   (next_result_queue m)) in
    Some (raise_or_return result, m1)
  | _ => None
  end.

(** What the coroutines of one queue can do next: a caller enters [call],
    or the dispatcher takes a turn. *)
Inductive Action : Type :=
| ACall (f : ApiFunction) (a : list PyVal) (k : list (string * PyVal))
| ADispatch.

Definition step (fuel : nat) (m : Machine) (act : Action) : option Machine :=
  match act with
  | ACall f a k => Some (snd (call_submit f a k m))
  | ADispatch => _process_queue_turn fuel m
  end.

Fixpoint run (fuel : nat) (acts : list Action) (m : Machine) : option Machine :=
  match acts with
  | [] => Some m
  | act :: acts' =>
    match step fuel m act with
    | None => None
    | Some m1 => run fuel acts' m1
    end
  end.

(** *** Reading the log *)

Definition is_decrease (ev : Event) : bool :=
  match ev with EvDecreaseDelay => true | _ => false end.

Definition is_increase (ev : Event) : bool :=
  match ev with EvIncreaseDelay => true | _ => false end.

(** How many events of a kind a log holds. *)
Definition count (p : Event -> bool) (tr : list Event) : nat :=
  length (List.filter p tr).

(** The outcomes of the attempts ([_thread] calls), oldest first. *)
Fixpoint attempts (tr : list Event) : list Outcome :=
  match tr with
  | [] => []
  | EvThread _ _ _ o :: tr' => o :: attempts tr'
  | _ :: tr' => attempts tr'
  end.

(** The calls of [increase_delay] and [decrease_delay], oldest first. *)
Fixpoint backoff_ops (tr : list Event) : list BackoffOp :=
  match tr with
  | [] => []
  | EvIncreaseDelay :: tr' => Increase :: backoff_ops tr'
  | EvDecreaseDelay :: tr' => Decrease :: backoff_ops tr'
  | _ :: tr' => backoff_ops tr'
  end.

(** The result queues named by the enqueues, the dequeues and the puts. *)
Fixpoint enqueued (tr : list Event) : list nat :=
  match tr with
  | [] => []
  | EvEnqueue chan :: tr' => chan :: enqueued tr'
  | _ :: tr' => enqueued tr'
  end.

Fixpoint dequeued (tr : list Event) : list nat :=
  match tr with
  | [] => []
  | EvDequeue entry :: tr' => result_queue entry :: dequeued tr'
  | _ :: tr' => dequeued tr'
  end.

Fixpoint delivered (tr : list Event) : list (nat * PyVal) :=
  match tr with
  | [] => []
  | EvPut chan result :: tr' => (chan, result) :: delivered tr'
  | _ :: tr' => delivered tr'
  end.

(** The entries the dispatcher has taken from [_queue], oldest first. *)
Fixpoint dequeued_entries (tr : list Event) : list PendingCall :=
  match tr with
  | [] => []
  | EvDequeue entry :: tr' => entry :: dequeued_entries tr'
  | _ :: tr' => dequeued_entries tr'
  end.

(** The entries that the [call]s of a schedule enqueue, in the order of
    the calls, when the first result queue made is number [n]. *)
Fixpoint submissions (n : nat) (acts : list Action) : list PendingCall :=
  match acts with
  | [] => []
  | ACall f a k :: acts' => mkPendingCall n f a k :: submissions (S n) acts'
  | ADispatch :: acts' => submissions n acts'
  end.

(** The world after [n] attempts of [f a k]. *)
Fixpoint world_after (n : nat) (f : ApiFunction) (a : list PyVal)
    (k : list (string * PyVal)) (w : World) : World :=
  match n with
  | O => w
  | S n' => world_after n' f a k (snd (f a k w))
  end.

(** An attempt that the protected call answers with a retry. *)
Definition throttled (strings : list string) (o : Outcome) : bool :=
  match o with
  | Returns _ => false
  | Raises e => is_throttling strings e
  end.

(** From world [w], [f a k] is throttled fewer than [fuel] times in a row,
    and what it does then is to return or to raise an [Exception]. *)
Definition settles_within (fuel : nat) (strings : list string)
    (f : ApiFunction) (a : list PyVal) (k : list (string * PyVal))
    (w : World) : Prop :=
  exists n, (n < fuel)%nat /\
    (forall i, (i < n)%nat ->
       throttled strings (fst (f a k (world_after i f a k w))) = true) /\
    throttled strings (fst (f a k (world_after n f a k w))) = false /\
    fatal (fst (f a k (world_after n f a k w))) = false.

(** The attempts after which the protected call calls [decrease_delay]:
    the [try] body and the two [except] clauses, the second one when the
    subscripts of line 102 found the code; any other exception leaves
    [_call] from the [yield] of line 68. *)
Definition decreases_on (o : Outcome) : bool :=
  match o with
  | Returns _ => true
  | Raises (BotoServerError _ _ _ _) => true
  | Raises (ClientError (Some _)) => true
  | Raises _ => false
  end.

(** What [_call] hands on for a last attempt [o]. *)
Definition propagated (o : Outcome) : Outcome :=
  match o with
  | Raises (BotoServerError status reason error_code message) =>
    Raises (translate_boto2 status reason error_code message)
  | Raises (ClientError None) => Raises KeyError
  | _ => o
  end.

(** The events of one protected call of [f a k] whose last attempt gave
    [raw]: throttled attempts, each followed by [increase_delay] and a
    sleep, then the last attempt and, for the outcomes of [decreases_on],
    one [decrease_delay]. *)
Inductive call_events (strings : list string) (f : ApiFunction)
    (a : list PyVal) (k : list (string * PyVal))
    : list Event -> Outcome -> Prop :=
| call_final (raw : Outcome) :
    throttled strings raw = false ->
    fatal raw = false ->
    call_events strings f a k
      (EvThread f a k raw ::
       (if decreases_on raw then [EvDecreaseDelay] else [])) raw
| call_retry (e : PyExc) (d : PyNum) (tr : list Event) (raw : Outcome) :
    is_throttling strings e = true ->
    call_events strings f a k tr raw ->
    call_events strings f a k
      (EvThread f a k (Raises e) :: EvIncreaseDelay :: EvSleep d :: tr) raw.

(** The protected call touches the delay, the world and the log only. *)
Definition same_queues (m m' : Machine) : Prop :=
  boto2_throttle_strings (self m') = boto2_throttle_strings (self m) /\
  _queue m' = _queue m /\
  result_queues m' = result_queues m /\
  next_result_queue m' = next_result_queue m.

(** The sleep of lines 61-62, if any. *)
Inductive pacing : list Event -> Prop :=
| pacing_none : pacing []
| pacing_sleep (d : PyNum) : 0 < value d -> pacing [EvSleep d].

(** A log in which the dispatcher works on one entry at a time: enqueues,
    and whole turns, each a dequeue, the protected call of the dequeued
    entry's own callable and arguments, the put into the entry's own result
    queue of the value that call returned or of the exception object it
    raised, and the pacing sleep. *)
Inductive serial_trace (strings : list string) : list Event -> Prop :=
| serial_nil : serial_trace strings []
| serial_enqueue (tr : list Event) (chan : nat) :
    serial_trace strings tr ->
    serial_trace strings (tr ++ [EvEnqueue chan])
| serial_turn (tr : list Event) (entry : PendingCall)
    (body : list Event) (raw : Outcome) (sl : list Event) :
    serial_trace strings tr ->
    call_events strings (api_function entry) (args entry) (kwargs entry)
      body raw ->
    pacing sl ->
    serial_trace strings
      (tr ++ EvDequeue entry :: body ++
       EvPut (result_queue entry)
         match propagated raw with
         | Returns result => result
         | Raises e => VExc e
         end :: sl).

(** What holds of a queue object between the steps of its coroutines. *)
Record dispatcher_inv (strings : list string) (m : Machine) : Prop :=
  mkDispatcherInv {
  inv_serial : serial_trace strings (trace m);
  inv_strings : boto2_throttle_strings (self m) = strings;
  inv_pending :
    enqueued (trace m) = dequeued (trace m) ++ map result_queue (_queue m);
  inv_delivered : map fst (delivered (trace m)) = dequeued (trace m);
  inv_fresh : enqueued (trace m) = seq 0 (next_result_queue m);
  inv_unwritten :
    forall entry, In entry (_queue m) ->
    result_queues m !! result_queue entry = Some [];
  inv_written :
    forall chan result, In (chan, result) (delivered (trace m)) ->
    result_queues m !! chan = Some [result]
}.

End Dispatcher.

Arguments mkPendingCall {World}.
Arguments result_queue {World}.
Arguments api_function {World}.
Arguments args {World}.
Arguments kwargs {World}.
Arguments EvEnqueue {World}.
Arguments EvDequeue {World}.
Arguments EvThread {World}.
Arguments EvIncreaseDelay {World}.
Arguments EvDecreaseDelay {World}.
Arguments EvSleep {World}.
Arguments EvPut {World}.
Arguments EvGet {World}.
Arguments mkMachine {World}.
Arguments self {World}.
Arguments _queue {World}.
Arguments result_queues {World}.
Arguments next_result_queue {World}.
Arguments world {World}.
Arguments trace {World}.
Arguments set_self {World}.
Arguments set_world {World}.
Arguments set_queue {World}.
Arguments set_result_queues {World}.
Arguments log {World}.
Arguments new_machine {World}.
Arguments call_decrease_delay {World}.
Arguments call_increase_delay {World}.
Arguments sleep_delay {World}.
Arguments _thread {World}.
Arguments _call {World}.
Arguments result_queue_put {World}.
Arguments _process_queue_turn {World}.
Arguments _process_queue {World}.
Arguments call_submit {World}.
Arguments call_resume {World}.
Arguments ACall {World}.
Arguments ADispatch {World}.
Arguments step {World}.
Arguments run {World}.
Arguments is_decrease {World}.
Arguments is_increase {World}.
Arguments count {World}.
Arguments attempts {World}.
Arguments backoff_ops {World}.
Arguments enqueued {World}.
Arguments dequeued {World}.
Arguments delivered {World}.
Arguments call_events {World}.
Arguments pacing {World}.
Arguments serial_trace {World}.
Arguments same_queues {World}.
Arguments dispatcher_inv {World}.
Arguments dequeued_entries {World}.
Arguments submissions {World}.
Arguments world_after {World}.
Arguments settles_within {World}.

(** ** Sample callables and errors

    The world is the number of attempts made so far. *)

(** Raises [e] on its first [n] attempts and gives [final] afterwards. *)
Definition flaky (n : nat) (e : PyExc) (final : Outcome) : ApiFunction nat :=
  fun _ _ w => (if (w <? n)%nat then Raises e else final, S w).

Definition value_error : PyExc := OtherException "ValueError".

Definition rate_exceeded : PyExc :=
  BotoServerError 400 "Bad Request" (Some "Rate exceeded"%string)
    (Some "Rate exceeded"%string).

Definition forbidden_throttling : PyExc :=
  BotoServerError 403 "Forbidden" (Some "Throttling"%string)
    (Some "Rate exceeded"%string).

Definition access_denied : PyExc :=
  BotoServerError 403 "Forbidden" (Some "AccessDenied"%string)
    (Some "not authorized"%string).

Definition blank_400 : PyExc :=
  BotoServerError 400 "Bad Request" None (Some ""%string).

Definition empty_code_400 : PyExc :=
  BotoServerError 400 "Bad Request" (Some ""%string) (Some ""%string).

(** Throttled twice with "Rate exceeded", then returns 7. *)
Definition throttled_twice : ApiFunction nat :=
  flaky 2 rate_exceeded (Returns (VInt 7)).

(** Raises a 403 with the code "Throttling" once, then returns 1. *)
Definition forbidden_once : ApiFunction nat :=
  flaky 1 forbidden_throttling (Returns (VInt 1)).

(** Always gives the same outcome. *)
Definition always (o : Outcome) : ApiFunction nat := flaky 0 value_error o.

(** Three callers and the dispatcher, interleaved. *)
Definition sample_schedule : list (Action nat) :=
  [ACall throttled_twice [VStr "a"] [];
   ACall (always (Raises access_denied)) [] [("UserName"%string, VStr "b")];
   ADispatch;
   ACall (always (Raises value_error)) [] [];
   ADispatch;
   ADispatch].

(** A callable that is interrupted from the keyboard, followed in the
    queue by one that returns 5. *)
Definition keyboard_interrupt : PyExc := OtherBaseException "KeyboardInterrupt".

Definition interrupted_schedule : list (Action nat) :=
  [ACall (always (Raises keyboard_interrupt)) [] [];
   ACall (always (Returns (VInt 5))) [] [];
   ADispatch].

(** A boto3 error whose response has no [['Error']['Code']]. *)
Definition no_code : PyExc := ClientError None.

(** A function that returns a pair. *)
Definition returns_pair : ApiFunction nat :=
  always (Returns (VTuple [VInt 1; VInt 2])).

(** A queue that has been throttled twice. *)
Definition paced_machine : Machine nat :=
  set_self (new_machine 0%nat) (set_delay __init__ (PyFloat 0.5)).

(** ** [kingpin.utils.retry]

    [src/kingpin/utils.py], lines 189-229.  The decorated function is an
    [ApiFunction]; the values are those of [PyVal]. *)

Section Retry.

Variable World : Type.

(** [excs], the exception type or tuple of types of [except excs as e]:
    the exception objects it matches, and whether it matches
    [tornado.gen.Return], the [Exception] subclass that line 216 raises
    inside the [try]. *)
Record ExcSpec : Type := mkExcSpec {
  catches : PyExc -> bool;
  catches_Return : bool
}.

(** The calls of the decorated function, with the counter [i] and what the
    call gave, and the calls of [tornado_sleep]. *)
Inductive RetryEvent : Type :=
| RTry (i : Z) (o : Outcome)
| RSleep (seconds : PyNum).

(** Whether ['Result: %s' % ret] of line 215 goes through: with a tuple on
    the right the [%] operator takes its items as the arguments of the
    format, and raises [TypeError] unless there is exactly one. *)
Definition formats (ret : PyVal) : bool :=
  match ret with
  | VTuple items => (length items =? 1)%nat
  | _ => true
  end.

(** What the [try] body of lines 211-216 ends with when the function gave
    [o]: the exception of the function, the [TypeError] of line 215, or the
    [gen.Return(ret)] of line 216, written [Returns ret]. *)
Definition try_outcome (o : Outcome) : Outcome :=
  match o with
  | Returns ret => if formats ret then Returns ret else Raises TypeError
  | Raises e => Raises e
  end.

(** Whether [except excs as e] takes what the [try] body ends with. *)
Definition caught_by (excs : ExcSpec) (o : Outcome) : bool :=
  match o with
  | Returns _ => catches_Return excs
  | Raises e => catches excs e
  end.

(** The [while True] of [wrapper], lines 210-227, from the counter [i].
    The outcome [Returns ret] is [gen.Return(ret)] leaving the generator:
    not matched by [excs] at line 217, or raised again at line 222. *)
Fixpoint wrapper_loop (fuel : nat) (excs : ExcSpec) (retries : Z)
    (delay : PyNum) (f : ApiFunction World) (a : list PyVal)
    (k : list (string * PyVal)) (i : Z) (w : World)
    (events : list RetryEvent) : option (Outcome * World * list RetryEvent) :=
  match fuel with
  | O => None
  | S fuel' =>
    let (o, w1) := f a k w in
    let events1 := events ++ [RTry i o] in
    let ended := try_outcome o in
    if caught_by excs ended then
      if (i >=? retries)%Z then Some (ended, w1, events1)
      else wrapper_loop fuel' excs retries delay f a k (i + 1) w1
             (events1 ++ [RSleep delay])
    else Some (ended, w1, events1)
  end.

(** [retry(excs, retries, delay)(f)] applied to arguments: [wrapper],
    whose counter starts at 1. *)
Definition retry (fuel : nat) (excs : ExcSpec) (retries : Z) (delay : PyNum)
    (f : ApiFunction World) (a : list PyVal) (k : list (string * PyVal))
    (w : World) : option (Outcome * World * list RetryEvent) :=
  wrapper_loop fuel excs retries delay f a k 1 w [].

(** The number of calls of the function in a log, and the sleeps. *)
Fixpoint rtries (events : list RetryEvent) : nat :=
  match events with
  | [] => O
  | RTry _ _ :: events' => S (rtries events')
  | RSleep _ :: events' => rtries events'
  end.

Fixpoint rsleeps (events : list RetryEvent) : list PyNum :=
  match events with
  | [] => []
  | RTry _ _ :: events' => rsleeps events'
  | RSleep d :: events' => d :: rsleeps events'
  end.

(** The number of tries [retry] allows: [retries], and one at the least. *)
Definition max_tries (retries : Z) : nat := Z.to_nat (Z.max 1 retries).

End Retry.

Arguments wrapper_loop {World}.
Arguments retry {World}.

(** [excs = BotoServerError], and [excs = Exception] as in the docstring
    of [retry]. *)
Definition only_boto2 : ExcSpec :=
  {| catches := fun e =>
       match e with BotoServerError _ _ _ _ => true | _ => false end;
     catches_Return := false |}.

Definition any_Exception : ExcSpec :=
  {| catches := is_Exception; catches_Return := true |}.

(** ** [kingpin.utils.str_to_class] and [kingpin.utils.populate_with_env] *)

From Stdlib Require Import Ascii.

(** [ch in s]. *)
Fixpoint contains (ch : Ascii.ascii) (s : string) : bool :=
  match s with
  | EmptyString => false
  | String c s' => Ascii.eqb c ch || contains ch s'
  end.

(** [s.split(sep)] for a separator of one character: never empty. *)
Fixpoint split (sep : Ascii.ascii) (s : string) : list string :=
  match s with
  | EmptyString => [EmptyString]
  | String c s' =>
    if Ascii.eqb c sep then EmptyString :: split sep s'
    else match split sep s' with
         | seg :: rest => String c seg :: rest
         | [] => [String c EmptyString]
         end
  end.

(** [sep.join(elements)]. *)
Fixpoint join (sep : string) (elements : list string) : string :=
  match elements with
  | [] => EmptyString
  | [x] => x
  | x :: rest => (x ++ sep ++ join sep rest)%string
  end.

Section StrToClass.

(** Modules and classes, and the two built-ins [str_to_class] calls:
    [__import__(module_name, globals(), locals(), class_name)], which gives
    a module or raises, and [getattr(m, class_name)], which gives the class
    or raises. *)
Variables PyModule PyClass : Type.
Variable __import__ : string -> string -> PyExc + PyModule.
Variable getattr : PyModule -> string -> PyExc + PyClass.

(** [str_to_class], lines 54-78: [pop()] takes the last element off the
    list that [split] made. *)
Definition str_to_class (string : String.string) : PyExc + PyClass :=
  let string_elements := split "."%char string in
  let class_name := List.last string_elements EmptyString in
  let string_elements := List.removelast string_elements in
  let module_name := join "."%string string_elements in
  match __import__ module_name class_name with
  | inl e => inl e
  | inr m => getattr m class_name
  end.

End StrToClass.

Arguments str_to_class {PyModule PyClass}.

(** ['%%%s%%' % k]. *)
Definition token_of (k : string) : string := ("%" ++ k ++ "%")%string.

(** [s.replace(old, new)] for a non-empty [old]: every occurrence of
    [old], found from the left and not overlapping the one before, is
    replaced.  [skip] counts the characters of the occurrence just replaced
    that are still to be passed. *)
Fixpoint replace_from (skip : nat) (old new s : string) : string :=
  match s with
  | EmptyString => EmptyString
  | String c s' =>
    match skip with
    | S n => replace_from n old new s'
    | O =>
      if String.prefix old s
      then (new ++ replace_from (String.length old - 1) old new s')%string
      else String c (replace_from 0 old new s')
    end
  end.

Definition replace (old new s : string) : string := replace_from 0 old new s.

(** [\w] in a pattern without flags: a letter, a digit or the underscore. *)
Definition is_word (c : Ascii.ascii) : bool :=
  let n := Ascii.nat_of_ascii c in
  ((97 <=? n) && (n <=? 122) || (65 <=? n) && (n <=? 90) ||
   (48 <=? n) && (n <=? 57) || (n =? 95))%nat.

(** The longest run of [\w] characters at the head of [s], and the rest. *)
Fixpoint word_run (s : string) : string * string :=
  match s with
  | EmptyString => (EmptyString, EmptyString)
  | String c s' =>
    if is_word c then let (run, rest) := word_run s' in (String c run, rest)
    else (EmptyString, s)
  end.

(** A match of [%[\w]+%] at the head of [s]: a percent sign, the longest
    run of word characters, not empty, and a percent sign. *)
Definition match_token (s : string) : option string :=
  match s with
  | String c0 s' =>
    if Ascii.eqb c0 "%" then
      match word_run s' with
      | (String c run, String c1 _) =>
        if Ascii.eqb c1 "%" then Some (token_of (String c run)) else None
      | _ => None
      end
    else None
  | EmptyString => None
  end.

(** [re.findall(r'%[\w]+%', s)]. *)
Fixpoint findall_from (skip : nat) (s : string) : list string :=
  match s with
  | EmptyString => []
  | String c s' =>
    match skip with
    | S n => findall_from n s'
    | O =>
      match match_token s with
      | Some tok => tok :: findall_from (String.length tok - 1) s'
      | None => findall_from 0 s'
      end
    end
  end.

Definition findall (s : string) : list string := findall_from 0 s.

(** No percent sign in [s]; every character of [s] is a [\w]. *)
Definition pct_free (s : string) : Prop := contains "%" s = false.

Fixpoint all_word (s : string) : bool :=
  match s with
  | EmptyString => true
  | String c s' => is_word c && all_word s'
  end.

(** [populate_with_env], lines 243-267, on [os.environ] given as the list
    of its items in the order [iteritems()] yields them.  [None] is the
    [InvalidEnvironment] raised for the tokens left. *)
Definition populate_with_env (environ : list (string * string))
    (string : String.string) : option String.string :=
  let string :=
    fold_left (fun acc kv => replace (token_of (fst kv)) (snd kv) acc)
      environ string in
  match findall string with
  | [] => Some string
  | _ :: _ => None
  end.

(** A new queue with two calls submitted and none dispatched. *)
Definition two_queued : Machine nat :=
  snd (call_submit (always (Raises access_denied)) [] []
         (snd (call_submit throttled_twice [] [] (new_machine 0%nat)))).

(** ** Bounds on repeated halving and doubling *)

(** [b] multiplied [k] times by [c]. *)
Fixpoint scaled (c : Q) (k : nat) (b : Q) : Q :=
  match k with
  | O => b
  | S k' => scaled c k' b * c
  end.

(** ** The sleeps of a log *)

Section Sleeps.

Variable World : Type.

(** The arguments of the [gen.sleep] calls, oldest first. *)
Fixpoint sleeps (tr : list (Event World)) : list PyNum :=
  match tr with
  | [] => []
  | EvSleep d :: tr' => d :: sleeps tr'
  | _ :: tr' => sleeps tr'
  end.

End Sleeps.

Arguments sleeps {World}.

(** ** The turns of a schedule *)

Section Turns.

Variable World : Type.

(** The number of turns in which the dispatcher of a schedule finds an
    entry to take, when [pending] entries wait at the start. *)
Fixpoint turns_taken (pending : nat) (acts : list (Action World)) : nat :=
  match acts with
  | [] => O
  | ACall _ _ _ :: acts' => turns_taken (S pending) acts'
  | ADispatch :: acts' =>
    match pending with
    | O => turns_taken O acts'
    | S pending' => S (turns_taken pending' acts')
    end
  end.

End Turns.

Arguments turns_taken {World}.

(** A sleep of no less than [delay_min] and no more than [delay_max]. *)
Definition sleep_in_bounds (d : PyNum) : Prop :=
  0.25 <= value d /\ value d <= 30.

(** * The backoff controller *)

Section BackoffFacts.

Lemma decrease_delay_bounds (s : ApiCallQueue) :
  delay_min (decrease_delay s) = delay_min s /\
  delay_max (decrease_delay s) = delay_max s /\
  boto2_throttle_strings (decrease_delay s) = boto2_throttle_strings s.
Proof.
  unfold decrease_delay.
  destruct (py_eq (delay s) (PyInt 0)); [easy|].
  destruct (py_eq (delay s) (delay_min s)); easy.
Qed.

Lemma increase_delay_bounds (s : ApiCallQueue) :
  delay_min (increase_delay s) = delay_min s /\
  delay_max (increase_delay s) = delay_max s /\
  boto2_throttle_strings (increase_delay s) = boto2_throttle_strings s.
Proof.
  unfold increase_delay.
  destruct (py_eq (delay s) (PyInt 0)); easy.
Qed.

Lemma value_py_mul2 (d : PyNum) : value (py_mul d (PyInt 2)) == value d * 2.
Proof.
  destruct d as [z|q]; cbn.
  - rewrite inject_Z_mult. reflexivity.
  - reflexivity.
Qed.

Lemma value_py_min (a b : PyNum) :
  value (py_min a b) == Qmin (value a) (value b).
Proof.
  unfold py_min. destruct (Qlt_le_dec (value b) (value a)) as [H|H].
  - symmetry. apply Q.min_r. lra.
  - symmetry. apply Q.min_l. exact H.
Qed.

Lemma value_py_max (a b : PyNum) :
  value (py_max a b) == Qmax (value a) (value b).
Proof.
  unfold py_max. destruct (Qlt_le_dec (value a) (value b)) as [H|H].
  - symmetry. apply Q.max_r. lra.
  - symmetry. apply Q.max_l. exact H.
Qed.

Lemma increase_delay_formula (s : ApiCallQueue) :
  value (delay (increase_delay s)) ==
  if py_eq (delay s) (PyInt 0) then value (delay_min s)
  else Qmin (value (delay s) * 2) (value (delay_max s)).
Proof.
  unfold increase_delay. destruct (py_eq (delay s) (PyInt 0)); cbn.
  - reflexivity.
  - rewrite value_py_min, value_py_mul2. reflexivity.
Qed.

Lemma decrease_delay_formula (s : ApiCallQueue) :
  value (delay (decrease_delay s)) ==
  if py_eq (delay s) (PyInt 0) then value (delay s)
  else if py_eq (delay s) (delay_min s) then 0
  else Qmax (value (py_div (delay s) (PyInt 2))) (value (delay_min s)).
Proof.
  unfold decrease_delay. destruct (py_eq (delay s) (PyInt 0)).
  - reflexivity.
  - destruct (py_eq (delay s) (delay_min s)); cbn.
    + reflexivity.
    + apply value_py_max.
Qed.

Lemma Qhalf (d : Q) : d / 2 == d * (1 # 2).
Proof. unfold Qdiv. reflexivity. Qed.

Lemma increase_delay_shape (s : ApiCallQueue) :
  bounds_ok s -> delay_shape (delay s) -> delay_shape (delay (increase_delay s)).
Proof.
  intros [Hmin Hmax] Hd. unfold increase_delay.
  destruct (py_eq (delay s) (PyInt 0)) eqn:E0; cbn.
  - rewrite Hmin. cbn. find_in_table.
  - rewrite Hmax. apply Qeq_bool_neq in E0.
    destruct (delay s) as [z|q]; cbn in E0, Hd |- *.
    + unfold py_min. cbn.
      destruct (Qlt_le_dec _ _) as [H|H]; cbn.
      * lia.
      * rewrite <- Zle_Qle in H. lia.
    + unfold py_min. cbn.
      destruct (Qlt_le_dec _ _) as [H|H]; cbn.
      * lia.
      * unfold inject_Z in *. unfold float_table in Hd.
        repeat rewrite List.Exists_cons in Hd. rewrite List.Exists_nil in Hd.
        repeat (destruct Hd as [E|Hd]; [find_in_table|]).
        contradiction.
Qed.

Lemma decrease_delay_shape (s : ApiCallQueue) :
  bounds_ok s -> delay_shape (delay s) -> delay_shape (delay (decrease_delay s)).
Proof.
  intros [Hmin Hmax] Hd. unfold decrease_delay.
  destruct (py_eq (delay s) (PyInt 0)) eqn:E0; [exact Hd|].
  destruct (py_eq (delay s) (delay_min s)) eqn:E1; cbn; [lia|].
  rewrite Hmin in E1 |- *.
  apply Qeq_bool_neq in E0. apply Qeq_bool_neq in E1.
  destruct (delay s) as [z|q]; cbn in E0, E1, Hd |- *.
  - unfold py_max. cbn.
    destruct (Qlt_le_dec _ _) as [H|H]; cbn.
    + find_in_table.
    + split.
      * apply Z.div_pos; lia.
      * apply Z.div_le_upper_bound; lia.
  - unfold py_max. cbn.
    destruct (Qlt_le_dec _ _) as [H|H]; cbn.
    + find_in_table.
    + unfold inject_Z in *. rewrite Qhalf in H.
      unfold float_table in Hd.
      repeat rewrite List.Exists_cons in Hd. rewrite List.Exists_nil in Hd.
      repeat (destruct Hd as [E|Hd];
              [first [ contradiction
                     | unfold float_table;
                       repeat first
                         [ apply List.Exists_cons_hd; rewrite Qhalf; lra
                         | apply List.Exists_cons_tl ] ]|]).
      contradiction.
Qed.

Lemma apply_op_shape (s : ApiCallQueue) (op : BackoffOp) :
  bounds_ok s -> delay_shape (delay s) ->
  bounds_ok (apply_op s op) /\ delay_shape (delay (apply_op s op)).
Proof.
  intros Hb Hd. destruct op; cbn.
  - split; [|apply increase_delay_shape; assumption].
    destruct Hb as [Hmin Hmax], (increase_delay_bounds s) as [E1 [E2 _]].
    split; congruence.
  - split; [|apply decrease_delay_shape; assumption].
    destruct Hb as [Hmin Hmax], (decrease_delay_bounds s) as [E1 [E2 _]].
    split; congruence.
Qed.

Lemma run_ops_shape (ops : list BackoffOp) :
  forall s, bounds_ok s -> delay_shape (delay s) ->
  bounds_ok (run_ops ops s) /\ delay_shape (delay (run_ops ops s)).
Proof.
  induction ops as [|op ops IH]; intros s Hb Hd; cbn.
  - split; assumption.
  - destruct (apply_op_shape s op Hb Hd) as [Hb' Hd'].
    apply IH; assumption.
Qed.

(** From [__init__] the delay is an int from 0 to 30 or one of the seven
    floats 0.25, 0.5, ..., 16: the rational model of the floats is exact on
    every state the object reaches. *)
Lemma reachable_delay_shape (ops : list BackoffOp) :
  delay_shape (delay (run_ops ops __init__)).
Proof.
  apply run_ops_shape.
  - split; reflexivity.
  - cbn. lia.
Qed.

Lemma delay_shape_range (d : PyNum) :
  delay_shape d -> value d == 0 \/ (0.25 <= value d /\ value d <= 30).
Proof.
  destruct d as [z|q]; cbn.
  - intros [Hlo Hhi]. destruct (Z.eq_dec z 0%Z) as [->|Hne].
    + left. reflexivity.
    + right. split.
      * assert (H : inject_Z 1 <= inject_Z z) by (rewrite <- Zle_Qle; lia).
        unfold inject_Z at 1 in H. lra.
      * assert (H : inject_Z z <= inject_Z 30) by (rewrite <- Zle_Qle; lia).
        unfold inject_Z at 2 in H. exact H.
  - unfold float_table.
    repeat rewrite List.Exists_cons. rewrite List.Exists_nil.
    intros Hd. right.
    repeat (destruct Hd as [E|Hd]; [lra|]). contradiction.
Qed.

(** C2. From the initial state ([delay = 0]), after any finite sequence of
    [increase_delay()] and [decrease_delay()] calls the delay is 0 or lies
    in [0.25, 30]. *)
Theorem delay_invariant (ops : list BackoffOp) :
  value (delay (run_ops ops __init__)) == 0 \/
  (0.25 <= value (delay (run_ops ops __init__)) /\
   value (delay (run_ops ops __init__)) <= 30).
Proof. apply delay_shape_range, reachable_delay_shape. Qed.

Lemma repeat_op_S (f : ApiCallQueue -> ApiCallQueue) (k : nat)
    (s : ApiCallQueue) :
  repeat_op f (S k) s = f (repeat_op f k s).
Proof. reflexivity. Qed.

Lemma repeat_op_increase_bounds (n : nat) (s : ApiCallQueue) :
  bounds_ok s -> bounds_ok (repeat_op increase_delay n s).
Proof.
  intros Hb. induction n as [|n IH]; cbn.
  - exact Hb.
  - destruct IH as [Hmin Hmax].
    destruct (increase_delay_bounds (repeat_op increase_delay n s))
      as [E1 [E2 _]].
    split; congruence.
Qed.

Lemma increase_delay_at_cap (s : ApiCallQueue) :
  bounds_ok s -> delay s = PyInt 30 -> delay (increase_delay s) = PyInt 30.
Proof.
  intros [_ Hmax] H. unfold increase_delay. rewrite H. cbn.
  rewrite Hmax. reflexivity.
Qed.

Lemma decrease_delay_at_zero (s : ApiCallQueue) :
  delay s = PyInt 0 -> delay (decrease_delay s) = PyInt 0.
Proof. intros H. unfold decrease_delay. rewrite H. cbn. exact H. Qed.

(** C3. From [delay = 0], successive [increase_delay()] calls give
    0.25, 0.5, 1, 2, 4, 8, 16, 30, 30 and 30 (the int [delay_max]) ever
    after; a call sets a zero delay to [delay_min] and otherwise doubles
    it, capped at [delay_max]. *)
Theorem increase_delay_sequence :
  Forall2 Qeq (delays_after increase_delay 9 __init__)
    [0.25; 0.5; 1; 2; 4; 8; 16; 30; 30] /\
  (forall n : nat,
     delay (repeat_op increase_delay (8 + n) __init__) = PyInt 30) /\
  (forall s : ApiCallQueue,
     value (delay (increase_delay s)) ==
     if py_eq (delay s) (PyInt 0) then value (delay_min s)
     else Qmin (value (delay s) * 2) (value (delay_max s))).
Proof.
  split; [|split].
  - unfold delays_after. cbn [seq map].
    repeat (apply List.Forall2_cons; [vm_compute; reflexivity|]).
    apply List.Forall2_nil.
  - induction n as [|n IH].
    + vm_compute. reflexivity.
    + rewrite Nat.add_succ_r, repeat_op_S.
      apply increase_delay_at_cap; [|exact IH].
      apply repeat_op_increase_bounds. split; reflexivity.
  - exact increase_delay_formula.
Qed.

(** C4 fails on the code. The delay that [increase_delay()] leaves at the
    cap is the int [delay_max = 30]; [self.delay /= 2] on an int is
    Python 2 floor division, so the successive [decrease_delay()] calls give
    15, 7, 3, 1, 0.25, 0, 0, ... and not 15, 7.5, 3.75, ... *)
Theorem decrease_delay_floors :
  delay at_cap = PyInt 30 /\
  Forall2 Qeq (delays_after decrease_delay 9 at_cap)
    [15; 7; 3; 1; 0.25; 0; 0; 0; 0] /\
  (forall n : nat, delay (repeat_op decrease_delay (6 + n) at_cap) = PyInt 0).
Proof.
  split; [|split].
  - vm_compute. reflexivity.
  - unfold delays_after. cbn [seq map].
    repeat (apply List.Forall2_cons; [vm_compute; reflexivity|]).
    apply List.Forall2_nil.
  - induction n as [|n IH].
    + vm_compute. reflexivity.
    + rewrite Nat.add_succ_r, repeat_op_S.
      apply decrease_delay_at_zero. exact IH.
Qed.

(** What C4 describes is what the code does on a float: were the delay the
    float 30.0, the calls would give 15, 7.5, 3.75, 1.875, 0.9375, 0.46875,
    0.25, 0, 0, ... *)
Lemma decrease_delay_sequence_float :
  Forall2 Qeq
    (delays_after decrease_delay 9 (set_delay __init__ (PyFloat 30)))
    [15; 7.5; 3.75; 1.875; 0.9375; 0.46875; 0.25; 0; 0] /\
  (forall n : nat,
     delay (repeat_op decrease_delay (8 + n)
              (set_delay __init__ (PyFloat 30))) = PyInt 0) /\
  (forall s : ApiCallQueue,
     decrease_delay (set_delay s (PyInt 0)) = set_delay s (PyInt 0)).
Proof.
  split; [|split].
  - unfold delays_after. cbn [seq map].
    repeat (apply List.Forall2_cons; [vm_compute; reflexivity|]).
    apply List.Forall2_nil.
  - induction n as [|n IH].
    + vm_compute. reflexivity.
    + rewrite Nat.add_succ_r, repeat_op_S.
      apply decrease_delay_at_zero. exact IH.
  - intros s. reflexivity.
Qed.

Lemma py_eq_zero (d : PyNum) : py_eq d (PyInt 0) = true <-> value d == 0.
Proof. unfold py_eq. rewrite Qeq_bool_iff. reflexivity. Qed.

(** What one [increase_delay()] leaves, on a state of the object. *)
Lemma increase_delay_value_bound (s : ApiCallQueue) :
  bounds_ok s ->
  delay_shape (delay s) ->
  0.25 <= value (delay (increase_delay s)) /\
  (value (delay s) * 2 <= value (delay (increase_delay s)) \/
   30 <= value (delay (increase_delay s))).
Proof.
  intros [Hmin Hmax] Hd. rewrite increase_delay_formula.
  destruct (py_eq (delay s) (PyInt 0)) eqn:E0.
  - apply py_eq_zero in E0. rewrite Hmin. cbn [value]. lra.
  - assert (N0 : ~ value (delay s) == 0).
    { intros E. apply py_eq_zero in E. congruence. }
    destruct (delay_shape_range _ Hd) as [H|[Hlo Hhi]]; [contradiction|].
    rewrite Hmax. cbn [value]. unfold inject_Z.
    destruct (Q.min_spec (value (delay s) * 2) 30) as [[_ E]|[_ E]];
      rewrite E; lra.
Qed.

End BackoffFacts.

(** * The protected call *)

Section CallFacts.

Variable World : Type.
Implicit Types (m : Machine World) (f : ApiFunction World).
Implicit Types (a : list PyVal) (k : list (string * PyVal)).

Lemma increase_delay_strings (s : ApiCallQueue) :
  boto2_throttle_strings (increase_delay s) = boto2_throttle_strings s.
Proof. apply increase_delay_bounds. Qed.

Lemma decrease_delay_strings (s : ApiCallQueue) :
  boto2_throttle_strings (decrease_delay s) = boto2_throttle_strings s.
Proof. apply decrease_delay_bounds. Qed.

Lemma _thread_unfold f a k m :
  _thread f a k m =
  (fst (f a k (world m)),
   log (EvThread f a k (fst (f a k (world m))))
     (set_world m (snd (f a k (world m))))).
Proof. unfold _thread. destruct (f a k (world m)); reflexivity. Qed.

(** One turn of the loop of [_call], by the outcome of the attempt. *)
Lemma _call_returns fuel f a k m result m1 :
  _thread f a k m = (Returns result, m1) ->
  _call (S fuel) f a k m = Some (Returns result, call_decrease_delay m1).
Proof. intros E. cbn [_call]. rewrite E. reflexivity. Qed.

Lemma _call_throttled fuel f a k m e m1 :
  _thread f a k m = (Raises e, m1) ->
  is_throttling (boto2_throttle_strings (self m)) e = true ->
  _call (S fuel) f a k m =
  _call fuel f a k (sleep_delay (call_increase_delay m1)).
Proof.
  intros E T. cbn [_call]. rewrite E.
  assert (S1 : self m1 = self m).
  { rewrite _thread_unfold in E. inversion E. reflexivity. }
  rewrite S1.
  destruct e as [status reason error_code message|[code|]|msg|name|name];
    cbn [is_throttling] in T; try discriminate T; rewrite T; reflexivity.
Qed.

Lemma _call_boto2_error fuel f a k m status reason error_code message m1 :
  _thread f a k m =
    (Raises (BotoServerError status reason error_code message), m1) ->
  py_in error_code (boto2_throttle_strings (self m)) = false ->
  _call (S fuel) f a k m =
  Some (Raises (translate_boto2 status reason error_code message),
        call_decrease_delay m1).
Proof.
  intros E T. cbn [_call]. rewrite E.
  assert (S1 : self m1 = self m).
  { rewrite _thread_unfold in E. inversion E. reflexivity. }
  rewrite S1, T. reflexivity.
Qed.

Lemma _call_boto3_error fuel f a k m code m1 :
  _thread f a k m = (Raises (ClientError (Some code)), m1) ->
  String.eqb code "Throttling" = false ->
  _call (S fuel) f a k m =
  Some (Raises (ClientError (Some code)), call_decrease_delay m1).
Proof. intros E T. cbn [_call]. rewrite E, T. reflexivity. Qed.

(** A boto3 error without a code: the [KeyError] of line 102 leaves the
    handler before line 107. *)
Lemma _call_key_error fuel f a k m m1 :
  _thread f a k m = (Raises (ClientError None), m1) ->
  _call (S fuel) f a k m = Some (Raises KeyError, m1).
Proof. intros E. cbn [_call]. rewrite E. reflexivity. Qed.

(** An attempt that ends in a [BaseException] that is not an [Exception]
    leaves the protected call suspended. *)
Lemma _call_fatal fuel f a k m o m1 :
  _thread f a k m = (o, m1) ->
  fatal o = true ->
  _call (S fuel) f a k m = None.
Proof.
  intros E F. cbn [_call]. rewrite E.
  destruct o as [result|e]; [discriminate F|].
  destruct e as [status reason error_code message|code|msg|name|name];
    try discriminate F.
  reflexivity.
Qed.

Lemma _call_other_error fuel f a k m e m1 :
  _thread f a k m = (Raises e, m1) ->
  decreases_on (Raises e) = false ->
  fatal (Raises e) = false ->
  _call (S fuel) f a k m = Some (propagated (Raises e), m1).
Proof.
  intros E D F. cbn [_call]. rewrite E.
  destruct e as [status reason error_code message|[code|]|msg|name|name];
    try discriminate D; try discriminate F; reflexivity.
Qed.

Lemma _thread_frame f a k m o m1 :
  _thread f a k m = (o, m1) ->
  self m1 = self m /\ trace m1 = trace m ++ [EvThread f a k o] /\
  _queue m1 = _queue m /\ result_queues m1 = result_queues m /\
  next_result_queue m1 = next_result_queue m.
Proof.
  rewrite _thread_unfold. intros E. inversion E. subst. cbn.
  repeat split; reflexivity.
Qed.

Lemma same_queues_trans m1 m2 m3 :
  same_queues m1 m2 -> same_queues m2 m3 -> same_queues m1 m3.
Proof.
  intros [A1 [A2 [A3 A4]]] [B1 [B2 [B3 B4]]].
  repeat split; congruence.
Qed.

Lemma same_queues_thread f a k m o m1 :
  _thread f a k m = (o, m1) -> same_queues m m1.
Proof.
  intros E. destruct (_thread_frame _ _ _ _ _ _ E) as [A [_ [B [C D]]]].
  repeat split; congruence.
Qed.

Lemma same_queues_decrease m : same_queues m (call_decrease_delay m).
Proof.
  repeat split; try reflexivity. cbn. apply decrease_delay_strings.
Qed.

Lemma same_queues_retry m : same_queues m (sleep_delay (call_increase_delay m)).
Proof.
  repeat split; try reflexivity. cbn. apply increase_delay_strings.
Qed.

(** The protected call ends at the first attempt that is not throttled,
    when the coroutine is resumed with what the attempt gave. *)
Lemma _call_final fuel f a k m o m1 :
  _thread f a k m = (o, m1) ->
  throttled (boto2_throttle_strings (self m)) o = false ->
  fatal o = false ->
  _call (S fuel) f a k m =
  Some (propagated o, if decreases_on o then call_decrease_delay m1 else m1).
Proof.
  intros E T F. destruct o as [result|e].
  - apply _call_returns. exact E.
  - destruct e as [status reason error_code message|[code|]|msg|name|name];
      cbn in T |- *; try discriminate F.
    + apply _call_boto2_error; assumption.
    + apply _call_boto3_error; assumption.
    + apply _call_key_error; assumption.
    + apply (_call_other_error _ _ _ _ _ _ _ E eq_refl eq_refl).
    + apply (_call_other_error _ _ _ _ _ _ _ E eq_refl eq_refl).
Qed.

(** The log of a protected call that has come to an end. *)
Lemma _call_events (fuel : nat) f a k :
  forall m o m',
  _call fuel f a k m = Some (o, m') ->
  exists tr raw,
    trace m' = trace m ++ tr /\
    call_events (boto2_throttle_strings (self m)) f a k tr raw /\
    o = propagated raw /\
    same_queues m m'.
Proof.
  induction fuel as [|fuel IH]; intros m o m' H; [discriminate H|].
  destruct (_thread f a k m) as [o1 m1] eqn:E.
  pose proof (_thread_frame _ _ _ _ _ _ E) as [S1 [T1 _]].
  pose proof (same_queues_thread _ _ _ _ _ _ E) as Q1.
  destruct (throttled (boto2_throttle_strings (self m)) o1) eqn:T.
  - destruct o1 as [result|e]; [discriminate T|]. cbn [throttled] in T.
    rewrite (_call_throttled _ _ _ _ _ _ _ E T) in H.
    apply IH in H. destruct H as [tr [raw [Htr [Hev [Ho Hq]]]]].
    exists (EvThread f a k (Raises e) :: EvIncreaseDelay ::
            EvSleep (delay (increase_delay (self m1))) :: tr), raw.
    split; [|split; [|split]].
    + rewrite Htr. cbn. rewrite T1. rewrite <- !app_assoc. reflexivity.
    + apply call_retry; [exact T|].
      destruct (same_queues_retry m1) as [R _].
      destruct Q1 as [R1 _]. rewrite R, R1 in Hev. exact Hev.
    + exact Ho.
    + eapply same_queues_trans; [exact Q1|].
      eapply same_queues_trans; [apply same_queues_retry|exact Hq].
  - destruct (fatal o1) eqn:F.
    { rewrite (_call_fatal _ _ _ _ _ _ _ E F) in H. discriminate H. }
    exists (EvThread f a k o1 ::
            (if decreases_on o1 then [EvDecreaseDelay] else [])), o1.
    rewrite (_call_final _ _ _ _ _ _ _ E T F) in H. inversion H; subst.
    split; [|split; [|split]].
    + destruct (decreases_on o1); cbn; rewrite T1, <- ?app_assoc;
        reflexivity.
    + apply call_final; assumption.
    + reflexivity.
    + destruct (decreases_on o1); [|exact Q1].
      eapply same_queues_trans; [exact Q1|apply same_queues_decrease].
Qed.

Lemma call_events_counts (strings : list string) f a k tr raw :
  call_events strings f a k tr raw ->
  count is_decrease tr = (if decreases_on raw then 1 else 0)%nat /\
  count is_increase tr = length (List.filter (throttled strings) (attempts tr)) /\
  last (attempts tr) = Some raw /\
  throttled strings raw = false.
Proof.
  induction 1 as [raw T F|e d tr raw T H IH].
  - unfold count. destruct (decreases_on raw); cbn; rewrite T;
      repeat split; auto.
  - destruct IH as [D [I [L R]]]. unfold count in *. cbn.
    rewrite T. cbn. rewrite D, I. repeat split; auto.
    destruct (attempts tr); [discriminate L|exact L].
Qed.

Lemma call_events_projections (strings : list string) f a k tr raw :
  call_events strings f a k tr raw ->
  enqueued tr = [] /\ dequeued tr = [] /\ delivered tr = [].
Proof.
  induction 1 as [raw T F|e d tr raw T H IH].
  - destruct (decreases_on raw); repeat split; reflexivity.
  - exact IH.
Qed.

Lemma call_events_not_fatal (strings : list string) f a k tr raw :
  call_events strings f a k tr raw -> fatal raw = false.
Proof. induction 1 as [raw T F|e d tr raw T H IH]; assumption. Qed.

(** A call that is throttled at every attempt never comes to an end. *)
Lemma _call_never_settles (fuel : nat) f a k :
  forall m,
  (forall w, throttled (boto2_throttle_strings (self m))
               (fst (f a k w)) = true) ->
  _call fuel f a k m = None.
Proof.
  induction fuel as [|fuel IH]; intros m Hth; [reflexivity|].
  pose proof (_thread_unfold f a k m) as E.
  specialize (Hth (world m)) as T.
  destruct (fst (f a k (world m))) as [result|e]; [discriminate T|].
  cbn [throttled] in T. rewrite (_call_throttled _ _ _ _ _ _ _ E T).
  apply IH. intros w. cbn. rewrite increase_delay_strings. apply Hth.
Qed.

(** A call that is throttled [n] times and then is not comes to an end
    with any fuel above [n]: it hands on what attempt [n] gave, after
    [n + 1] attempts in all. *)
Lemma _call_settles (n extra : nat) f a k :
  forall m,
  (forall i, (i < n)%nat ->
     throttled (boto2_throttle_strings (self m))
       (fst (f a k (world_after i f a k (world m)))) = true) ->
  throttled (boto2_throttle_strings (self m))
    (fst (f a k (world_after n f a k (world m)))) = false ->
  fatal (fst (f a k (world_after n f a k (world m)))) = false ->
  exists m',
    _call (S n + extra) f a k m =
      Some (propagated (fst (f a k (world_after n f a k (world m)))), m') /\
    world m' = world_after (S n) f a k (world m).
Proof.
  induction n as [|n IH]; intros m Hth Hfin Hfat.
  - cbn in Hfin, Hfat |- *. pose proof (_thread_unfold f a k m) as E.
    eexists. split.
    + apply (_call_final _ _ _ _ _ _ _ E Hfin Hfat).
    + destruct (decreases_on _); reflexivity.
  - pose proof (_thread_unfold f a k m) as E.
    assert (T : throttled (boto2_throttle_strings (self m))
                  (fst (f a k (world m))) = true)
      by (apply (Hth 0%nat); lia).
    destruct (fst (f a k (world m))) as [result|e] eqn:Eo; [discriminate T|].
    cbn [throttled] in T.
    change (S (S n) + extra)%nat with (S (S n + extra)).
    rewrite (_call_throttled _ _ _ _ _ _ _ E T).
    destruct (IH (sleep_delay
                    (call_increase_delay
                       (log (EvThread f a k (Raises e))
                          (set_world m (snd (f a k (world m))))))))
      as [m' [Hc Hw]].
    + intros i Hi. cbn. rewrite increase_delay_strings.
      apply (Hth (S i)). lia.
    + cbn. rewrite increase_delay_strings. exact Hfin.
    + exact Hfat.
    + exists m'. split; [exact Hc|exact Hw].
Qed.

(** The object after a protected call is what the calls of
    [increase_delay] and [decrease_delay] in its log make of the object
    before. *)
Lemma _call_self (fuel : nat) f a k :
  forall m o m',
  _call fuel f a k m = Some (o, m') ->
  exists tr,
    trace m' = trace m ++ tr /\
    self m' = run_ops (backoff_ops tr) (self m).
Proof.
  induction fuel as [|fuel IH]; intros m o m' H; [discriminate H|].
  pose proof (_thread_unfold f a k m) as E.
  destruct (throttled (boto2_throttle_strings (self m))
              (fst (f a k (world m)))) eqn:T.
  - destruct (fst (f a k (world m))) as [result|e]; [discriminate T|].
    cbn [throttled] in T. rewrite (_call_throttled _ _ _ _ _ _ _ E T) in H.
    destruct (IH _ _ _ H) as [tr [Htr Hs]].
    exists (EvThread f a k (Raises e) :: EvIncreaseDelay ::
            EvSleep (delay (increase_delay (self m))) :: tr).
    split.
    + rewrite Htr. cbn. rewrite <- !app_assoc. reflexivity.
    + rewrite Hs. reflexivity.
  - destruct (fatal (fst (f a k (world m)))) eqn:F.
    { rewrite (_call_fatal _ _ _ _ _ _ _ E F) in H. discriminate H. }
    rewrite (_call_final _ _ _ _ _ _ _ E T F) in H.
    destruct (decreases_on (fst (f a k (world m))));
      inversion H; subst m'.
    + exists [EvThread f a k (fst (f a k (world m))); EvDecreaseDelay].
      split; [cbn; rewrite <- app_assoc; reflexivity|reflexivity].
    + exists [EvThread f a k (fst (f a k (world m)))].
      split; reflexivity.
Qed.

Lemma call_events_last (strings : list string) f a k tr raw :
  call_events strings f a k tr raw ->
  decreases_on raw = true -> last tr = Some EvDecreaseDelay.
Proof.
  induction 1 as [raw T F|e d tr raw T H IH]; intros D.
  - rewrite D. reflexivity.
  - specialize (IH D). destruct tr as [|ev tr]; [discriminate IH|].
    exact IH.
Qed.

(** C1, as the code has it. A protected call that comes to an end has
    called [increase_delay()] once for each throttled attempt and for no
    other; it has called [decrease_delay()] exactly once, as its last act
    before handing on the outcome, when the last attempt returned, raised a
    boto2 error (a credential error or another one) or raised a boto3 error
    whose response carries a code, and not at all when it raised anything
    else: an exception of another type, or a boto3 error without a code,
    for which the [KeyError] of line 102 is what the call hands on; and
    these calls, applied in their order to the object as it was, give the
    object as the call leaves it. *)
Theorem _call_delay_adjustments fuel f a k m o m' :
  _call fuel f a k m = Some (o, m') ->
  exists tr raw,
    trace m' = trace m ++ tr /\
    last (attempts tr) = Some raw /\
    throttled (boto2_throttle_strings (self m)) raw = false /\
    o = propagated raw /\
    count is_increase tr =
      length (List.filter (throttled (boto2_throttle_strings (self m)))
                (attempts tr)) /\
    count is_decrease tr =
      match raw with
      | Returns _ => 1
      | Raises (BotoServerError _ _ _ _) => 1
      | Raises (ClientError (Some _)) => 1
      | Raises _ => 0
      end%nat /\
    (count is_decrease tr = 1%nat -> last tr = Some EvDecreaseDelay) /\
    self m' = run_ops (backoff_ops tr) (self m).
Proof.
  intros H.
  destruct (_call_events _ _ _ _ _ _ _ H) as [tr [raw [Htr [Hev [Ho _]]]]].
  destruct (call_events_counts _ _ _ _ _ _ Hev) as [D [I [L T]]].
  destruct (_call_self _ _ _ _ _ _ _ H) as [tr' [Htr' Hs]].
  assert (tr' = tr) as ->
    by (apply (List.app_inv_head (trace m)); congruence).
  exists tr, raw. repeat split; auto.
  - rewrite D.
    destruct raw as [result|e]; [reflexivity|].
    destruct e as [status reason error_code message|[code|]|msg|name|name];
      reflexivity.
  - rewrite D. intros D1. apply (call_events_last _ _ _ _ _ _ Hev).
    destruct (decreases_on raw); [reflexivity|discriminate D1].
Qed.


(** C6, as the code has it. A boto2 error with HTTP status 403 whose code
    is not one of the throttle strings ends the protected call at that
    attempt: the delay is decreased and [InvalidCredentials] is raised with
    the message ["<code>: <message>"], which [call] raises to the caller. *)
Theorem _call_forbidden fuel f a k m reason error_code message m1 :
  _thread f a k m =
    (Raises (BotoServerError 403 reason error_code message), m1) ->
  py_in error_code (boto2_throttle_strings (self m)) = false ->
  _call (S fuel) f a k m =
    Some (Raises (InvalidCredentials
                    (py_str error_code ++ ": " ++ py_str message)),
          call_decrease_delay m1) /\
  raise_or_return
    (caught (Raises (InvalidCredentials
                       (py_str error_code ++ ": " ++ py_str message)))) =
  Raises (InvalidCredentials (py_str error_code ++ ": " ++ py_str message)).
Proof.
  intros E T. split; [|reflexivity].
  rewrite (_call_boto2_error _ _ _ _ _ _ _ _ _ _ E T).
  unfold translate_boto2. cbn. reflexivity.
Qed.

(** C7, as the code has it. A boto2 error with HTTP status 400, reason
    "Bad Request" and no error code ([None]) ends the protected call at
    that attempt: the delay is decreased and [InvalidCredentials] is raised
    with the message "Access credentials have expired", which [call]
    raises to the caller. *)
Theorem _call_blank_bad_request fuel f a k m message m1 :
  _thread f a k m =
    (Raises (BotoServerError 400 "Bad Request" None message), m1) ->
  _call (S fuel) f a k m =
    Some (Raises (InvalidCredentials "Access credentials have expired"),
          call_decrease_delay m1) /\
  raise_or_return
    (caught (Raises (InvalidCredentials "Access credentials have expired"))) =
  Raises (InvalidCredentials "Access credentials have expired").
Proof.
  intros E. split; [|reflexivity].
  rewrite (_call_boto2_error _ _ _ _ _ _ _ _ _ _ E eq_refl). reflexivity.
Qed.

End CallFacts.

(** * The queue and its dispatcher *)

Section QueueFacts.

Variable World : Type.
Implicit Types (m : Machine World) (f : ApiFunction World).
Implicit Types (a : list PyVal) (k : list (string * PyVal)).
Implicit Types (tr : list (Event World)) (entry : PendingCall World).

Lemma enqueued_app tr1 tr2 :
  enqueued (tr1 ++ tr2) = enqueued tr1 ++ enqueued tr2.
Proof.
  induction tr1 as [|ev tr1 IH]; [reflexivity|].
  destruct ev; cbn; rewrite ?IH; reflexivity.
Qed.

Lemma dequeued_app tr1 tr2 :
  dequeued (tr1 ++ tr2) = dequeued tr1 ++ dequeued tr2.
Proof.
  induction tr1 as [|ev tr1 IH]; [reflexivity|].
  destruct ev; cbn; rewrite ?IH; reflexivity.
Qed.

Lemma delivered_app tr1 tr2 :
  delivered (tr1 ++ tr2) = delivered tr1 ++ delivered tr2.
Proof.
  induction tr1 as [|ev tr1 IH]; [reflexivity|].
  destruct ev; cbn; rewrite ?IH; reflexivity.
Qed.

Lemma pacing_projections tr :
  pacing tr -> enqueued tr = [] /\ dequeued tr = [] /\ delivered tr = [].
Proof. destruct 1; repeat split; reflexivity. Qed.

(** A turn on a non-empty queue whose protected call comes to an end: the
    outcome, caught, goes into the result queue of the head entry. *)
Lemma _process_queue_turn_spec fuel m entry rest o m2 :
  _queue m = entry :: rest ->
  result_queues m !! result_queue entry = Some [] ->
  _call fuel (api_function entry) (args entry) (kwargs entry)
    (log (EvDequeue entry) (set_queue m rest)) = Some (o, m2) ->
  exists m3 sl,
    _process_queue_turn fuel m = Some m3 /\
    pacing sl /\
    trace m3 = trace m2 ++ EvPut (result_queue entry) (caught o) :: sl /\
    _queue m3 = rest /\
    result_queues m3 =
      <[result_queue entry := [caught o]]> (result_queues m) /\
    next_result_queue m3 = next_result_queue m /\
    boto2_throttle_strings (self m3) = boto2_throttle_strings (self m).
Proof.
  intros Hq Hc Hcall. unfold _process_queue_turn. rewrite Hq, Hcall.
  destruct (_call_events _ _ _ _ _ _ _ _ Hcall)
    as [tr [raw [_ [_ [_ [Q1 [Q2 [Q3 Q4]]]]]]]].
  cbn in Q1, Q2, Q3, Q4.
  unfold result_queue_put. rewrite Q3, Hc.
  destruct (Qlt_le_dec 0 _) as [Hd|Hd]; eexists; eexists.
  - split; [reflexivity|]. split; [apply pacing_sleep; exact Hd|].
    cbn. rewrite <- app_assoc. repeat split; auto.
  - split; [reflexivity|]. split; [apply pacing_none|].
    cbn. repeat split; auto.
Qed.

Lemma inv_new (w : World) :
  dispatcher_inv (boto2_throttle_strings __init__) (new_machine w).
Proof.
  split; cbn; try reflexivity.
  - apply serial_nil.
  - intros entry [].
  - intros chan result [].
Qed.

Lemma inv_nodup (strings : list string) m :
  dispatcher_inv strings m ->
  List.NoDup (dequeued (trace m) ++ map result_queue (_queue m)).
Proof.
  intros I. rewrite <- (inv_pending _ _ _ I), (inv_fresh _ _ _ I).
  apply List.seq_NoDup.
Qed.

Lemma inv_below (strings : list string) m (chan : nat) :
  dispatcher_inv strings m ->
  In chan (dequeued (trace m) ++ map result_queue (_queue m)) ->
  (chan < next_result_queue m)%nat.
Proof.
  intros I. rewrite <- (inv_pending _ _ _ I), (inv_fresh _ _ _ I).
  rewrite List.in_seq. lia.
Qed.

Lemma inv_submit (strings : list string) f a k m :
  dispatcher_inv strings m ->
  dispatcher_inv strings (snd (call_submit f a k m)).
Proof.
  intros I. pose proof (fun chan => inv_below _ _ chan I) as Hlt.
  destruct I as [I1 I2 I3 I4 I5 I6 I7].
  split; cbn -[seq].
  - apply serial_enqueue. exact I1.
  - exact I2.
  - rewrite enqueued_app, dequeued_app, I3, map_app. cbn.
    rewrite app_nil_r, <- app_assoc. reflexivity.
  - rewrite delivered_app, dequeued_app. cbn. rewrite !app_nil_r. exact I4.
  - rewrite enqueued_app, I5, List.seq_S. reflexivity.
  - intros entry Hin. apply in_app_or in Hin. destruct Hin as [Hin|[<-|[]]].
    + rewrite lookup_insert_ne; [apply I6; exact Hin|].
      assert (result_queue entry < next_result_queue m)%nat; [|lia].
      apply Hlt, in_or_app. right. apply in_map. exact Hin.
    + cbn. apply lookup_insert_eq.
  - intros chan result. rewrite delivered_app. cbn. rewrite app_nil_r.
    intros Hin. rewrite lookup_insert_ne; [apply I7; exact Hin|].
    assert (chan < next_result_queue m)%nat; [|lia].
    apply Hlt, in_or_app. left. rewrite <- I4.
    change chan with (fst (chan, result)). apply in_map. exact Hin.
Qed.

Lemma inv_turn (strings : list string) fuel m m' :
  dispatcher_inv strings m ->
  _process_queue_turn fuel m = Some m' ->
  dispatcher_inv strings m'.
Proof.
  intros I H. destruct (_queue m) as [|entry rest] eqn:Hq.
  { unfold _process_queue_turn in H. rewrite Hq in H. congruence. }
  pose proof (inv_nodup _ _ I) as Hnd. rewrite Hq in Hnd. cbn in Hnd.
  destruct I as [I1 I2 I3 I4 I5 I6 I7]. rewrite Hq in I3. cbn in I3.
  assert (Hc : result_queues m !! result_queue entry = Some []).
  { apply I6. rewrite Hq. left. reflexivity. }
  destruct (_call fuel (api_function entry) (args entry) (kwargs entry)
              (log (EvDequeue entry) (set_queue m rest)))
    as [[o m2]|] eqn:Hcall.
  2:{ unfold _process_queue_turn in H. rewrite Hq, Hcall in H. discriminate. }
  destruct (_call_events _ _ _ _ _ _ _ _ Hcall)
    as [body [raw [Htr [Hev [Ho _]]]]].
  cbn in Htr, Hev. rewrite I2 in Hev.
  destruct (_process_queue_turn_spec _ _ _ _ _ _ Hq Hc Hcall)
    as [m3 [sl [Hturn [Hsl [Htr3 [Hq3 [Hr3 [Hn3 Hs3]]]]]]]].
  rewrite Hturn in H. inversion H; subst m'. clear H.
  assert (T3 : trace m3 =
               trace m ++ EvDequeue entry :: body ++
               EvPut (result_queue entry) (caught (propagated raw)) :: sl).
  { rewrite Htr3, Htr, Ho, <- !app_assoc. reflexivity. }
  destruct (call_events_projections _ _ _ _ _ _ _ Hev) as [B1 [B2 B3]].
  destruct (pacing_projections _ Hsl) as [P1 [P2 P3]].
  assert (E3 : enqueued (trace m3) = enqueued (trace m)).
  { rewrite T3, enqueued_app. cbn. rewrite enqueued_app, B1. cbn.
    rewrite P1, app_nil_r. reflexivity. }
  assert (D3 : dequeued (trace m3) =
               dequeued (trace m) ++ [result_queue entry]).
  { rewrite T3, dequeued_app. cbn. rewrite dequeued_app, B2. cbn.
    rewrite P2. reflexivity. }
  assert (L3 : delivered (trace m3) =
               delivered (trace m) ++
               [(result_queue entry, caught (propagated raw))]).
  { rewrite T3, delivered_app. cbn. rewrite delivered_app, B3. cbn.
    rewrite P3. reflexivity. }
  apply List.NoDup_remove_2 in Hnd.
  split.
  - rewrite T3. apply serial_turn; assumption.
  - congruence.
  - rewrite E3, D3, Hq3, I3, <- app_assoc. reflexivity.
  - rewrite L3, D3, map_app, I4. reflexivity.
  - rewrite E3, Hn3. exact I5.
  - intros entry' Hin. rewrite Hq3 in Hin. rewrite Hr3.
    rewrite lookup_insert_ne.
    + apply I6. rewrite Hq. right. exact Hin.
    + intros E. apply Hnd, in_or_app. right. rewrite E.
      apply in_map. exact Hin.
  - intros chan result. rewrite L3, Hr3. intros Hin.
    apply in_app_or in Hin. destruct Hin as [Hin|[Hin|[]]].
    + rewrite lookup_insert_ne; [apply I7; exact Hin|].
      intros E. apply Hnd, in_or_app. left. rewrite <- I4, E.
      change chan with (fst (chan, result)). apply in_map. exact Hin.
    + inversion Hin; subst. apply lookup_insert_eq.
Qed.

Lemma inv_run (strings : list string) fuel (acts : list (Action World)) :
  forall m m',
  dispatcher_inv strings m ->
  run fuel acts m = Some m' ->
  dispatcher_inv strings m'.
Proof.
  induction acts as [|act acts IH]; intros m m' I H; cbn in H.
  - congruence.
  - destruct (step fuel m act) as [m1|] eqn:Hstep; [|discriminate H].
    apply (IH m1 m'); [|exact H].
    destruct act as [f a k|]; cbn in Hstep.
    + inversion Hstep; subst. apply inv_submit. exact I.
    + eapply inv_turn; eassumption.
Qed.

Lemma dequeued_entries_app tr1 tr2 :
  dequeued_entries (tr1 ++ tr2) = dequeued_entries tr1 ++ dequeued_entries tr2.
Proof.
  induction tr1 as [|ev tr1 IH]; [reflexivity|].
  destruct ev; cbn; rewrite ?IH; reflexivity.
Qed.

Lemma dequeued_entries_ids tr :
  dequeued tr = map result_queue (dequeued_entries tr).
Proof.
  induction tr as [|ev tr IH]; [reflexivity|].
  destruct ev; cbn; rewrite ?IH; reflexivity.
Qed.

Lemma call_events_no_dequeue (strings : list string) f a k tr raw :
  call_events strings f a k tr raw -> dequeued_entries tr = [].
Proof.
  induction 1 as [raw T F|e d tr raw T H IH].
  - destruct (decreases_on raw); reflexivity.
  - exact IH.
Qed.

(** The log of a turn that takes an entry. *)
Lemma _process_queue_turn_trace (strings : list string) fuel m m' entry rest :
  dispatcher_inv strings m ->
  _queue m = entry :: rest ->
  _process_queue_turn fuel m = Some m' ->
  exists body raw sl,
    call_events strings (api_function entry) (args entry) (kwargs entry)
      body raw /\
    pacing sl /\
    trace m' = trace m ++ EvDequeue entry :: body ++
               EvPut (result_queue entry) (caught (propagated raw)) :: sl /\
    _queue m' = rest.
Proof.
  intros I Hq H.
  assert (Hc : result_queues m !! result_queue entry = Some []).
  { apply (inv_unwritten _ _ _ I). rewrite Hq. left. reflexivity. }
  destruct (_call fuel (api_function entry) (args entry) (kwargs entry)
              (log (EvDequeue entry) (set_queue m rest)))
    as [[o m2]|] eqn:Hcall.
  2:{ unfold _process_queue_turn in H. rewrite Hq, Hcall in H. discriminate. }
  destruct (_call_events _ _ _ _ _ _ _ _ Hcall)
    as [body [raw [Htr [Hev [Ho _]]]]].
  cbn in Htr, Hev. rewrite (inv_strings _ _ _ I) in Hev.
  destruct (_process_queue_turn_spec _ _ _ _ _ _ Hq Hc Hcall)
    as [m3 [sl [Hturn [Hsl [Htr3 [Hq3 _]]]]]].
  rewrite Hturn in H. inversion H; subst m'. clear H.
  exists body, raw, sl. repeat split; auto.
  rewrite Htr3, Htr, Ho, <- !app_assoc. reflexivity.
Qed.

Lemma turn_entries (strings : list string) fuel m m' :
  dispatcher_inv strings m ->
  _process_queue_turn fuel m = Some m' ->
  dequeued_entries (trace m') ++ _queue m' =
  dequeued_entries (trace m) ++ _queue m.
Proof.
  intros I H. destruct (_queue m) as [|entry rest] eqn:Hq.
  { unfold _process_queue_turn in H. rewrite Hq in H.
    inversion H; subst. rewrite Hq. reflexivity. }
  destruct (_process_queue_turn_trace _ _ _ _ _ _ I Hq H)
    as [body [raw [sl [Hev [Hsl [Htr Hq']]]]]].
  rewrite Htr, Hq', dequeued_entries_app. cbn.
  rewrite dequeued_entries_app, (call_events_no_dequeue _ _ _ _ _ _ Hev).
  cbn. destruct Hsl; cbn; rewrite <- app_assoc; reflexivity.
Qed.

Lemma run_entries (strings : list string) fuel (acts : list (Action World)) :
  forall m m',
  dispatcher_inv strings m ->
  run fuel acts m = Some m' ->
  dequeued_entries (trace m') ++ _queue m' =
  (dequeued_entries (trace m) ++ _queue m) ++
  submissions (next_result_queue m) acts.
Proof.
  induction acts as [|act acts IH]; intros m m' I H; cbn in H.
  - inversion H; subst. cbn. rewrite app_nil_r. reflexivity.
  - destruct (step fuel m act) as [m1|] eqn:Hstep; [|discriminate H].
    destruct act as [f a k|]; cbn in Hstep.
    + inversion Hstep; subst m1.
      rewrite (IH _ _ (inv_submit _ f a k _ I) H). cbn.
      rewrite dequeued_entries_app. cbn.
      rewrite app_nil_r, <- !app_assoc. reflexivity.
    + rewrite (IH _ _ (inv_turn _ _ _ _ I Hstep) H).
      rewrite (turn_entries _ _ _ _ I Hstep). cbn.
      assert (N : next_result_queue m1 = next_result_queue m).
      { pose proof (inv_fresh _ _ _ I) as F.
        pose proof (inv_fresh _ _ _ (inv_turn _ _ _ _ I Hstep)) as F1.
        pose proof (inv_pending _ _ _ I) as P.
        pose proof (inv_pending _ _ _ (inv_turn _ _ _ _ I Hstep)) as P1.
        rewrite !dequeued_entries_ids, <- !map_app in P, P1.
        rewrite (turn_entries _ _ _ _ I Hstep) in P1.
        rewrite <- P in P1. rewrite F, F1 in P1.
        apply (f_equal (@length nat)) in P1.
        rewrite !List.length_seq in P1. exact P1. }
      rewrite N. reflexivity.
Qed.

(** [_process_queue] is the dispatcher taking its turns one after the
    other. *)
Lemma _process_queue_run (turns fuel : nat) :
  forall m,
  _process_queue turns fuel m = run fuel (List.repeat ADispatch turns) m.
Proof.
  induction turns as [|turns IH]; intros m; cbn; [reflexivity|].
  destruct (_process_queue_turn fuel m); [apply IH|reflexivity].
Qed.

(** A turn ends when the protected call of the head entry settles. *)
Lemma _process_queue_turn_progress (strings : list string) fuel m :
  dispatcher_inv strings m ->
  (forall entry, In entry (_queue m) ->
     settles_within fuel strings (api_function entry) (args entry)
       (kwargs entry) (world m)) ->
  exists m',
    _process_queue_turn fuel m = Some m' /\
    _queue m' = tl (_queue m) /\
    next_result_queue m' = next_result_queue m.
Proof.
  intros I Hs. destruct (_queue m) as [|entry rest] eqn:Hq.
  { exists m. unfold _process_queue_turn. rewrite Hq. auto. }
  destruct (Hs entry (or_introl eq_refl)) as [n [Hn [Hth [Hfin Hfat]]]].
  assert (Hc : result_queues m !! result_queue entry = Some []).
  { apply (inv_unwritten _ _ _ I). rewrite Hq. left. reflexivity. }
  destruct (_call_settles World n (fuel - S n) (api_function entry)
              (args entry) (kwargs entry)
              (log (EvDequeue entry) (set_queue m rest)))
    as [m2 [Hcall _]].
  - cbn. rewrite (inv_strings _ _ _ I). exact Hth.
  - cbn. rewrite (inv_strings _ _ _ I). exact Hfin.
  - exact Hfat.
  - replace (S n + (fuel - S n))%nat with fuel in Hcall by lia.
    destruct (_process_queue_turn_spec _ _ _ _ _ _ Hq Hc Hcall)
      as [m3 [sl [Hturn [_ [_ [Hq3 [_ [Hn3 _]]]]]]]].
    exists m3. auto.
Qed.

(** With fuel above the number of times in a row that any submitted call
    is throttled, every schedule runs to its end. *)
Lemma run_progress (strings : list string) fuel (acts : list (Action World)) :
  forall m,
  dispatcher_inv strings m ->
  (forall entry,
     In entry (_queue m ++ submissions (next_result_queue m) acts) ->
     forall w, settles_within fuel strings (api_function entry)
                 (args entry) (kwargs entry) w) ->
  exists m', run fuel acts m = Some m'.
Proof.
  induction acts as [|act acts IH]; intros m I Hs.
  - exists m. reflexivity.
  - destruct act as [f a k|]; cbn [run step].
    + apply IH; [apply inv_submit; exact I|].
      intros entry Hin. apply Hs. cbn in Hin |- *.
      rewrite <- app_assoc in Hin. exact Hin.
    + destruct (_process_queue_turn_progress strings fuel m I)
        as [m1 [Hturn [Hq1 Hn1]]].
      { intros entry Hin. apply Hs, in_or_app. left. exact Hin. }
      rewrite Hturn. apply IH; [eapply inv_turn; eassumption|].
      intros entry Hin. apply Hs. cbn. rewrite Hq1, Hn1 in Hin.
      apply in_app_or in Hin. apply in_or_app.
      destruct Hin as [Hin|Hin]; [left|right; exact Hin].
      destruct (_queue m); [destruct Hin|right; exact Hin].
Qed.

Lemma turn_dequeued (strings : list string) fuel m m' entry rest :
  dispatcher_inv strings m ->
  _queue m = entry :: rest ->
  _process_queue_turn fuel m = Some m' ->
  dequeued_entries (trace m') = dequeued_entries (trace m) ++ [entry] /\
  _queue m' = rest.
Proof.
  intros I Hq H.
  destruct (_process_queue_turn_trace _ _ _ _ _ _ I Hq H)
    as [body [raw [sl [Hev [Hsl [Htr Hq']]]]]].
  split; [|exact Hq'].
  rewrite Htr, dequeued_entries_app. cbn.
  rewrite dequeued_entries_app, (call_events_no_dequeue _ _ _ _ _ _ Hev).
  cbn. destruct Hsl; reflexivity.
Qed.

(** The dispatcher takes one entry in each turn that finds one. *)
Lemma run_turns (strings : list string) fuel (acts : list (Action World)) :
  forall m m',
  dispatcher_inv strings m ->
  run fuel acts m = Some m' ->
  length (dequeued_entries (trace m')) =
  (length (dequeued_entries (trace m)) +
   turns_taken (length (_queue m)) acts)%nat.
Proof.
  induction acts as [|act acts IH]; intros m m' I H; cbn in H.
  - inversion H; subst. cbn. lia.
  - destruct (step fuel m act) as [m1|] eqn:Hstep; [|discriminate H].
    destruct act as [f a k|]; cbn in Hstep.
    + inversion Hstep; subst m1.
      rewrite (IH _ _ (inv_submit _ f a k _ I) H). cbn [turns_taken].
      cbn. rewrite dequeued_entries_app, !length_app. cbn.
      rewrite Nat.add_0_r, Nat.add_1_r. reflexivity.
    + rewrite (IH _ _ (inv_turn _ _ _ _ I Hstep) H).
      destruct (_queue m) as [|entry rest] eqn:Hq.
      * unfold _process_queue_turn in Hstep. rewrite Hq in Hstep.
        inversion Hstep; subst m1. rewrite Hq. reflexivity.
      * destruct (turn_dequeued _ _ _ _ _ _ I Hq Hstep) as [Hd Hq1].
        rewrite Hd, Hq1, length_app. cbn. lia.
Qed.

Lemma app_firstn_skipn (A : Type) (l1 l2 l : list A) :
  l1 ++ l2 = l ->
  l1 = firstn (length l1) l /\ l2 = skipn (length l1) l.
Proof.
  intros <-. split.
  - rewrite List.firstn_app, Nat.sub_diag, List.firstn_all. cbn.
    rewrite app_nil_r. reflexivity.
  - rewrite List.skipn_app, Nat.sub_diag, List.skipn_all. reflexivity.
Qed.


(** A turn whose head entry's callable raises a [BaseException] that is not
    an [Exception] does not end, whatever the fuel: the dispatcher is not
    resumed, nothing is put, and no later turn is taken. *)
Lemma _process_queue_turn_fatal fuel m entry rest
    (acts : list (Action World)) :
  _queue m = entry :: rest ->
  fatal (fst (api_function entry (args entry) (kwargs entry) (world m))) =
    true ->
  _process_queue_turn fuel m = None /\
  run fuel (ADispatch :: acts) m = None.
Proof.
  intros Hq F.
  assert (H : _process_queue_turn fuel m = None).
  { unfold _process_queue_turn. rewrite Hq.
    destruct fuel as [|fuel]; [reflexivity|].
    rewrite (_call_fatal World fuel _ _ _ _ _ _ (_thread_unfold _ _ _ _ _));
      [reflexivity|exact F]. }
  split; [exact H|]. cbn. rewrite H. reflexivity.
Qed.

(** In every state the coroutines of a queue can reach, each entry the
    dispatcher has taken has had exactly one value put into its own result
    queue, which holds that value and nothing else; the entries still
    queued have empty result queues; a [call] that resumes takes from its
    own result queue only; and when the protected call of the next entry
    returns [v] or raises [e], the turn ends with [v], or the exception
    object [e], as the one value in that entry's result queue and the
    dispatcher ready for the following entry. *)
Lemma result_queue_written_once fuel (acts : list (Action World))
    (w : World) m :
  run fuel acts (new_machine w) = Some m ->
  List.NoDup (map fst (delivered (trace m))) /\
  map fst (delivered (trace m)) =
    map result_queue (dequeued_entries (trace m)) /\
  (forall chan result,
     In (chan, result) (delivered (trace m)) ->
     result_queues m !! chan = Some [result]) /\
  (forall entry,
     In entry (_queue m) -> result_queues m !! result_queue entry = Some []) /\
  (forall entry rest o m2,
     _queue m = entry :: rest ->
     _call fuel (api_function entry) (args entry) (kwargs entry)
       (log (EvDequeue entry) (set_queue m rest)) = Some (o, m2) ->
     exists m3,
       _process_queue_turn fuel m = Some m3 /\
       _queue m3 = rest /\
       result_queues m3 !! result_queue entry =
         Some [match o with Returns v => v | Raises e => VExc e end] /\
       delivered (trace m3) =
         delivered (trace m) ++
         [(result_queue entry,
           match o with Returns v => v | Raises e => VExc e end)]) /\
  (forall chan o m',
     call_resume chan m = Some (o, m') ->
     forall chan', chan' <> chan ->
     result_queues m' !! chan' = result_queues m !! chan').
Proof.
  intros H. pose proof (inv_run _ _ _ _ _ (inv_new w) H) as I.
  split; [|split; [|split; [|split; [|split]]]].
  - rewrite (inv_delivered _ _ _ I).
    apply (List.NoDup_app_remove_r _ _ (inv_nodup _ _ I)).
  - rewrite <- dequeued_entries_ids. apply (inv_delivered _ _ _ I).
  - apply (inv_written _ _ _ I).
  - apply (inv_unwritten _ _ _ I).
  - intros entry rest o m2 Hq Hcall.
    assert (Hc : result_queues m !! result_queue entry = Some []).
    { apply (inv_unwritten _ _ _ I). rewrite Hq. left. reflexivity. }
    destruct (_process_queue_turn_spec _ _ _ _ _ _ Hq Hc Hcall)
      as [m3 [sl [Hturn [Hsl [Htr3 [Hq3 [Hr3 _]]]]]]].
    destruct (_call_events _ _ _ _ _ _ _ _ Hcall)
      as [body [raw [Htr [Hev _]]]].
    destruct (call_events_projections _ _ _ _ _ _ _ Hev) as [_ [_ B3]].
    destruct (pacing_projections _ Hsl) as [_ [_ P3]].
    assert (Ec : caught o =
                 match o with Returns v => v | Raises e => VExc e end)
      by (destruct o; reflexivity).
    exists m3. split; [exact Hturn|]. split; [exact Hq3|]. split.
    + rewrite Hr3, <- Ec. apply lookup_insert_eq.
    + rewrite Htr3, Htr. cbn [trace log set_queue].
      rewrite !delivered_app, B3. cbn [delivered].
      rewrite P3, !app_nil_r, <- Ec. reflexivity.
  - intros chan o m' Hres chan' Hne. unfold call_resume in Hres.
    destruct (result_queues m !! chan) as [[|result rest]|];
      try discriminate Hres.
    inversion Hres; subst. cbn. apply lookup_insert_ne. congruence.
Qed.

Lemma call_resume_spec (chan : nat) m (result : PyVal) (rest : list PyVal) :
  result_queues m !! chan = Some (result :: rest) ->
  call_resume chan m =
  Some (raise_or_return result,
        log (EvGet chan result)
          (set_result_queues m (<[chan := rest]> (result_queues m))
             (next_result_queue m))).
Proof. intros H. unfold call_resume. rewrite H. reflexivity. Qed.


End QueueFacts.

(** * Runs of the sample callables *)

(** C1 fails for an exception that is neither a boto2 nor a boto3 error:
    a [ValueError] ends the protected call with no [decrease_delay()], and
    the delay stays at 0.5. *)
Lemma other_error_skips_decrease_delay :
  throttled (boto2_throttle_strings __init__) (Raises value_error) = false /\
  option_map
    (fun r => (fst r, count is_decrease (trace (snd r)), delay (self (snd r))))
    (_call 1 (always (Raises value_error)) [] [] paced_machine) =
  Some (Raises value_error, 0%nat, PyFloat 0.5).
Proof. split; vm_compute; reflexivity. Qed.

(** A boto3 error whose response has no code: the call hands on the
    [KeyError] of line 102, and the delay stays at 0.5. *)
Lemma no_code_skips_decrease_delay :
  option_map
    (fun r => (fst r, count is_decrease (trace (snd r)), delay (self (snd r))))
    (_call 1 (always (Raises no_code)) [] [] paced_machine) =
  Some (Raises KeyError, 0%nat, PyFloat 0.5).
Proof. vm_compute; reflexivity. Qed.

Lemma _call_delay_adjustments_witness :
  exists m',
    _call 3 throttled_twice [] [] paced_machine = Some (Returns (VInt 7), m') /\
    exists tr raw,
      trace m' = trace paced_machine ++ tr /\
      last (attempts tr) = Some raw /\
      throttled (boto2_throttle_strings (self paced_machine)) raw = false /\
      Returns (VInt 7) = propagated raw /\
      count is_increase tr =
        length (List.filter
                  (throttled (boto2_throttle_strings (self paced_machine)))
                  (attempts tr)) /\
      count is_decrease tr =
        match raw with
        | Returns _ => 1
        | Raises (BotoServerError _ _ _ _) => 1
        | Raises (ClientError (Some _)) => 1
        | Raises _ => 0
        end%nat /\
      (count is_decrease tr = 1%nat -> last tr = Some EvDecreaseDelay) /\
      self m' = run_ops (backoff_ops tr) (self paced_machine).
Proof.
  eexists. split; [vm_compute; reflexivity|].
  apply (_call_delay_adjustments nat 3 throttled_twice [] [] paced_machine).
  vm_compute; reflexivity.
Defined.


(** C6 fails for a 403 whose code is a throttle string: the call is not
    over after the first attempt, and with a second attempt it returns. *)
Lemma forbidden_throttling_is_retried :
  fst (_thread forbidden_once [] [] (new_machine 0%nat)) =
    Raises (BotoServerError 403 "Forbidden" (Some "Throttling"%string)
              (Some "Rate exceeded"%string)) /\
  _call 1 forbidden_once [] [] (new_machine 0%nat) = None /\
  option_map fst (_call 2 forbidden_once [] [] (new_machine 0%nat)) =
    Some (Returns (VInt 1)).
Proof. repeat split; vm_compute; reflexivity. Qed.

Lemma _call_forbidden_witness :
  (_thread (always (Raises access_denied)) [] [] (new_machine 0%nat) =
     (Raises (BotoServerError 403 "Forbidden" (Some "AccessDenied"%string)
                (Some "not authorized"%string)),
      snd (_thread (always (Raises access_denied)) [] []
             (new_machine 0%nat))) /\
   py_in (Some "AccessDenied"%string)
     (boto2_throttle_strings (self (new_machine 0%nat))) = false) /\
  _call 1 (always (Raises access_denied)) [] [] (new_machine 0%nat) =
    Some (Raises (InvalidCredentials "AccessDenied: not authorized"),
          call_decrease_delay
            (snd (_thread (always (Raises access_denied)) [] []
                    (new_machine 0%nat)))) /\
  raise_or_return
    (caught (Raises (InvalidCredentials "AccessDenied: not authorized"))) =
  Raises (InvalidCredentials "AccessDenied: not authorized").
Proof.
  split; [split; vm_compute; reflexivity|].
  apply (_call_forbidden nat 0 (always (Raises access_denied)) [] []
           (new_machine 0%nat) "Forbidden" (Some "AccessDenied"%string)
           (Some "not authorized"%string)); vm_compute; reflexivity.
Defined.

(** C7 fails for an empty-string code: the 400 is raised as it came. *)
Lemma empty_code_is_not_translated :
  option_map fst
    (_call 1 (always (Raises empty_code_400)) [] [] (new_machine 0%nat)) =
  Some (Raises (BotoServerError 400 "Bad Request" (Some ""%string)
                  (Some ""%string))).
Proof. vm_compute; reflexivity. Qed.

Lemma _call_blank_bad_request_witness :
  _thread (always (Raises blank_400)) [] [] (new_machine 0%nat) =
    (Raises (BotoServerError 400 "Bad Request" None (Some ""%string)),
     snd (_thread (always (Raises blank_400)) [] [] (new_machine 0%nat))) /\
  _call 1 (always (Raises blank_400)) [] [] (new_machine 0%nat) =
    Some (Raises (InvalidCredentials "Access credentials have expired"),
          call_decrease_delay
            (snd (_thread (always (Raises blank_400)) [] []
                    (new_machine 0%nat)))) /\
  raise_or_return
    (caught (Raises (InvalidCredentials "Access credentials have expired"))) =
  Raises (InvalidCredentials "Access credentials have expired").
Proof.
  split; [vm_compute; reflexivity|].
  apply (_call_blank_bad_request nat 0 (always (Raises blank_400)) [] []
           (new_machine 0%nat) (Some ""%string)); vm_compute; reflexivity.
Defined.

(** The sample schedule: what is delivered, and where the delay stands. *)
Lemma sample_schedule_delivered :
  option_map (fun m => (delivered (trace m), enqueued (trace m)))
    (run 3 sample_schedule (new_machine 0%nat)) =
  Some ([(0%nat, VInt 7);
         (1%nat, VExc (InvalidCredentials "AccessDenied: not authorized"));
         (2%nat, VExc (OtherException "ValueError"))],
        [0%nat; 1%nat; 2%nat]).
Proof. vm_compute; reflexivity. Qed.

(** C9, at a callable that raises [KeyboardInterrupt]. The clause
    [except BaseException] of line 58 is there to put the exception into
    the entry's result queue, but the exception is never thrown into the
    dispatcher: whatever the fuel, the turn that takes the entry does not
    end, so its result queue is left unwritten, and no schedule that goes
    on after that turn comes to an end, so the call that returns 5 is never
    taken.  With a [ValueError] in its place, both results are delivered. *)
Theorem base_exception_stops_dispatcher (fuel : nat)
    (acts : list (Action nat)) :
  is_Exception keyboard_interrupt = false /\
  caught (Raises keyboard_interrupt) = VExc keyboard_interrupt /\
  option_map
    (fun m => (map result_queue (_queue m), result_queues m !! 0%nat,
               delivered (trace m)))
    (run fuel [ACall (always (Raises keyboard_interrupt)) [] [];
               ACall (always (Returns (VInt 5))) [] []]
       (new_machine 0%nat)) =
  Some ([0%nat; 1%nat], Some [], []) /\
  run fuel (interrupted_schedule ++ acts) (new_machine 0%nat) = None /\
  option_map (fun m => delivered (trace m))
    (run 1 [ACall (always (Raises value_error)) [] [];
            ACall (always (Returns (VInt 5))) [] [];
            ADispatch; ADispatch]
       (new_machine 0%nat)) =
  Some [(0%nat, VExc value_error); (1%nat, VInt 5)].
Proof.
  split; [reflexivity|]. split; [reflexivity|].
  split; [vm_compute; reflexivity|].
  split; [|vm_compute; reflexivity].
  unfold interrupted_schedule.
  change (run fuel
            ([ACall (always (Raises keyboard_interrupt)) [] [];
              ACall (always (Returns (VInt 5))) [] []; ADispatch] ++ acts)
            (new_machine 0%nat))
    with (run fuel (ADispatch :: acts)
            (snd (call_submit (always (Returns (VInt 5))) [] []
                    (snd (call_submit (always (Raises keyboard_interrupt))
                            [] [] (new_machine 0%nat)))))).
  eapply (_process_queue_turn_fatal nat); reflexivity.
Qed.


(** * More on the backoff controller *)

Section BackoffBounds.

Lemma py_div2_le (d : PyNum) :
  value (py_div d (PyInt 2)) <= value d * (1 # 2).
Proof.
  destruct d as [z|q]; cbn.
  - assert (H : inject_Z (2 * (z / 2)) <= inject_Z z).
    { rewrite <- Zle_Qle. apply Z.mul_div_le. lia. }
    rewrite inject_Z_mult in H. unfold inject_Z at 1 in H. lra.
  - unfold inject_Z. rewrite Qhalf. lra.
Qed.

Lemma decrease_delay_value_bound (s : ApiCallQueue) :
  bounds_ok s ->
  value (delay (decrease_delay s)) <= value (delay s) * (1 # 2) \/
  value (delay (decrease_delay s)) <= 0.25.
Proof.
  intros [Hmin _]. rewrite decrease_delay_formula.
  destruct (py_eq (delay s) (PyInt 0)) eqn:E0.
  - apply py_eq_zero in E0. right. lra.
  - destruct (py_eq (delay s) (delay_min s)); [right; lra|].
    rewrite Hmin. cbn [value].
    destruct (Q.max_spec (value (py_div (delay s) (PyInt 2))) 0.25)
      as [[_ E]|[_ E]]; rewrite E.
    + right. lra.
    + left. apply py_div2_le.
Qed.

Lemma repeat_op_decrease_bounds (n : nat) (s : ApiCallQueue) :
  bounds_ok s -> bounds_ok (repeat_op decrease_delay n s).
Proof.
  intros Hb. induction n as [|n IH]; cbn.
  - exact Hb.
  - destruct IH as [Hmin Hmax].
    destruct (decrease_delay_bounds (repeat_op decrease_delay n s))
      as [E1 [E2 _]].
    split; congruence.
Qed.

Lemma repeat_op_decrease_shape (n : nat) (s : ApiCallQueue) :
  bounds_ok s -> delay_shape (delay s) ->
  delay_shape (delay (repeat_op decrease_delay n s)).
Proof.
  intros Hb Hd. induction n as [|n IH]; cbn.
  - exact Hd.
  - apply decrease_delay_shape; [apply repeat_op_decrease_bounds|]; assumption.
Qed.

Lemma repeat_op_increase_shape (n : nat) (s : ApiCallQueue) :
  bounds_ok s -> delay_shape (delay s) ->
  delay_shape (delay (repeat_op increase_delay n s)).
Proof.
  intros Hb Hd. induction n as [|n IH]; cbn.
  - exact Hd.
  - apply increase_delay_shape; [apply repeat_op_increase_bounds|]; assumption.
Qed.

(** [k] calls of [decrease_delay] divide the delay by [2^k] at least, down
    to [delay_min]. *)
Lemma repeat_op_decrease_bound (k : nat) (s : ApiCallQueue) (b : Q) :
  bounds_ok s ->
  value (delay s) <= b ->
  value (delay (repeat_op decrease_delay k s)) <= scaled (1 # 2) k b \/
  value (delay (repeat_op decrease_delay k s)) <= 0.25.
Proof.
  intros Hb Hle. induction k as [|k IH]; cbn [repeat_op scaled].
  - left. exact Hle.
  - destruct (decrease_delay_value_bound (repeat_op decrease_delay k s)
                (repeat_op_decrease_bounds k s Hb)) as [H|H].
    + destruct IH as [IH|IH]; [left|right]; lra.
    + right. exact H.
Qed.

(** A delay of the right shape that is below 1/2 is 0 or 0.25. *)
Lemma delay_shape_small (d : PyNum) :
  delay_shape d -> value d < 1 # 2 -> d = PyInt 0 \/ value d == 0.25.
Proof.
  destruct d as [z|q]; cbn.
  - intros [Hlo Hhi] H. left. f_equal.
    destruct (Z.eq_dec z 0%Z) as [E|E]; [exact E|].
    assert (H1 : inject_Z 1 <= inject_Z z) by (rewrite <- Zle_Qle; lia).
    unfold inject_Z at 1 in H1. lra.
  - unfold float_table.
    repeat rewrite List.Exists_cons. rewrite List.Exists_nil.
    intros Hd H. right.
    repeat (destruct Hd as [E|Hd]; [lra|]). contradiction.
Qed.

Lemma decrease_delay_clears (s : ApiCallQueue) :
  bounds_ok s ->
  delay s = PyInt 0 \/ value (delay s) == 0.25 ->
  value (delay (decrease_delay s)) == 0.
Proof.
  intros [Hmin _] H. rewrite decrease_delay_formula.
  destruct (py_eq (delay s) (PyInt 0)) eqn:E0.
  - apply py_eq_zero in E0. exact E0.
  - destruct H as [H|H].
    + rewrite H in E0. discriminate E0.
    + assert (E1 : py_eq (delay s) (delay_min s) = true).
      { unfold py_eq. rewrite Hmin. apply Qeq_bool_iff. exact H. }
      rewrite E1. reflexivity.
Qed.

(** X1. Whatever the calls of [increase_delay()] and [decrease_delay()]
    that came before, seven [decrease_delay()] calls in a row bring the
    delay back to 0; six are not always enough (from 16.0 they leave
    0.25). *)
Theorem seven_decreases_clear_delay :
  (forall ops : list BackoffOp,
     value (delay (repeat_op decrease_delay 7 (run_ops ops __init__))) == 0) /\
  value (delay (repeat_op decrease_delay 6
                  (run_ops (List.repeat Increase 7) __init__))) == 0.25.
Proof.
  split; [|vm_compute; reflexivity]. intros ops.
  destruct (run_ops_shape ops __init__) as [Hb Hd];
    [split; reflexivity|cbn; lia|].
  rewrite repeat_op_S. apply decrease_delay_clears.
  - apply repeat_op_decrease_bounds. exact Hb.
  - apply delay_shape_small.
    + apply repeat_op_decrease_shape; assumption.
    + assert (H30 : value (delay (run_ops ops __init__)) <= 30).
      { destruct (delay_shape_range _ Hd) as [H|[_ H]]; lra. }
      destruct (repeat_op_decrease_bound 6 _ 30 Hb H30) as [H|H].
      * assert (E : scaled (1 # 2) 6 30 == 30 # 64) by reflexivity.
        rewrite E in H. lra.
      * lra.
Qed.

(** [k + 1] calls of [increase_delay] leave at least [0.25 * 2^k], up to
    [delay_max]. *)
Lemma repeat_op_increase_bound (k : nat) (s : ApiCallQueue) :
  bounds_ok s ->
  delay_shape (delay s) ->
  0.25 <= value (delay (repeat_op increase_delay (S k) s)) /\
  (scaled 2 k 0.25 <= value (delay (repeat_op increase_delay (S k) s)) \/
   30 <= value (delay (repeat_op increase_delay (S k) s))).
Proof.
  intros Hb Hd. induction k as [|k IH].
  - destruct (increase_delay_value_bound s Hb Hd) as [H _].
    cbn [repeat_op scaled]. split; [exact H|left; exact H].
  - rewrite repeat_op_S. cbn [scaled].
    destruct (increase_delay_value_bound
                (repeat_op increase_delay (S k) s)
                (repeat_op_increase_bounds (S k) s Hb)
                (repeat_op_increase_shape (S k) s Hb Hd)) as [H1 H2].
    split; [exact H1|].
    destruct IH as [_ [IH|IH]]; destruct H2 as [H2|H2];
      first [right; lra | left; lra].
Qed.

(** A delay of the right shape that is 30 or more is the int 30. *)
Lemma delay_shape_top (d : PyNum) :
  delay_shape d -> 30 <= value d -> d = PyInt 30.
Proof.
  destruct d as [z|q]; cbn.
  - intros [Hlo Hhi] H. f_equal.
    assert (H1 : (30 <= z)%Z).
    { rewrite Zle_Qle. unfold inject_Z at 1. exact H. }
    lia.
  - unfold float_table.
    repeat rewrite List.Exists_cons. rewrite List.Exists_nil.
    intros Hd H.
    repeat (destruct Hd as [E|Hd]; [lra|]). contradiction.
Qed.

(** X2. Whatever the calls that came before, eight [increase_delay()]
    calls in a row leave the delay at the cap, the int [delay_max = 30];
    seven are not always enough (from 0 they leave 16.0). *)
Theorem eight_increases_reach_cap :
  (forall ops : list BackoffOp,
     delay (repeat_op increase_delay 8 (run_ops ops __init__)) = PyInt 30) /\
  value (delay (repeat_op increase_delay 7 __init__)) == 16.
Proof.
  split; [|vm_compute; reflexivity]. intros ops.
  destruct (run_ops_shape ops __init__) as [Hb Hd];
    [split; reflexivity|cbn; lia|].
  apply delay_shape_top.
  - apply repeat_op_increase_shape; assumption.
  - destruct (repeat_op_increase_bound 7 _ Hb Hd) as [_ [H|H]].
    + assert (E : scaled 2 7 0.25 == 32) by reflexivity.
      rewrite E in H. lra.
    + exact H.
Qed.

Lemma py_min_l (a b : PyNum) : value a <= value b -> py_min a b = a.
Proof.
  intros H. unfold py_min.
  destruct (Qlt_le_dec (value b) (value a)) as [H1|H1]; [lra|reflexivity].
Qed.

Lemma py_max_l (a b : PyNum) : value b <= value a -> py_max a b = a.
Proof.
  intros H. unfold py_max.
  destruct (Qlt_le_dec (value a) (value b)) as [H1|H1]; [lra|reflexivity].
Qed.

Lemma value_py_div_mul2 (d : PyNum) :
  value (py_div (py_mul d (PyInt 2)) (PyInt 2)) == value d.
Proof.
  destruct d as [z|q]; cbn.
  - rewrite Z.div_mul by lia. reflexivity.
  - unfold inject_Z. field.
Qed.

(** X3. In a state the object can reach, when doubling the delay does not
    pass the cap, [decrease_delay()] undoes [increase_delay()]: the delay
    is back at its value, 0 included. *)
Theorem decrease_undoes_increase (ops : list BackoffOp) :
  value (delay (run_ops ops __init__)) * 2 <= 30 ->
  value (delay (decrease_delay (increase_delay (run_ops ops __init__)))) ==
  value (delay (run_ops ops __init__)).
Proof.
  destruct (run_ops_shape ops __init__) as [[Hmin Hmax] Hd];
    [split; reflexivity|cbn; lia|].
  set (s := run_ops ops __init__) in *. intros Hcap.
  unfold increase_delay.
  destruct (py_eq (delay s) (PyInt 0)) eqn:E0.
  - apply py_eq_zero in E0. rewrite E0.
    unfold decrease_delay. cbn [delay delay_min set_delay]. rewrite Hmin.
    reflexivity.
  - assert (N0 : ~ value (delay s) == 0).
    { intros E. apply py_eq_zero in E. congruence. }
    destruct (delay_shape_range _ Hd) as [H|[Hlo Hhi]]; [contradiction|].
    cbn [delay delay_max set_delay]. rewrite Hmax.
    pose proof (value_py_mul2 (delay s)) as Hm.
    rewrite py_min_l by (rewrite Hm; cbn [value]; unfold inject_Z; lra).
    unfold decrease_delay. cbn [delay delay_min set_delay]. rewrite Hmin.
    destruct (py_eq (py_mul (delay s) (PyInt 2)) (PyInt 0)) eqn:E1.
    { apply py_eq_zero in E1. lra. }
    destruct (py_eq (py_mul (delay s) (PyInt 2)) (PyFloat 0.25)) eqn:E2.
    { unfold py_eq in E2. apply Qeq_bool_iff in E2. cbn [value] in E2. lra. }
    cbn [delay delay_min set_delay].
    pose proof (value_py_div_mul2 (delay s)) as Hdm.
    rewrite py_max_l by (rewrite Hdm; cbn [value]; lra).
    exact Hdm.
Qed.

End BackoffBounds.

(** * The backoff through the protected call and the dispatcher *)

Section CallBackoff.

Variable World : Type.
Implicit Types (m : Machine World) (f : ApiFunction World).
Implicit Types (a : list PyVal) (k : list (string * PyVal)).
Implicit Types (tr : list (Event World)).

Lemma sleeps_app tr1 tr2 : sleeps (tr1 ++ tr2) = sleeps tr1 ++ sleeps tr2.
Proof.
  induction tr1 as [|ev tr1 IH]; [reflexivity|].
  destruct ev; cbn; rewrite ?IH; reflexivity.
Qed.

Lemma attempts_app tr1 tr2 :
  attempts (tr1 ++ tr2) = attempts tr1 ++ attempts tr2.
Proof.
  induction tr1 as [|ev tr1 IH]; [reflexivity|].
  destruct ev; cbn; rewrite ?IH; reflexivity.
Qed.

Lemma repeat_op_shift (g : ApiCallQueue -> ApiCallQueue) (n : nat)
    (s : ApiCallQueue) :
  repeat_op g n (g s) = repeat_op g (S n) s.
Proof.
  induction n as [|n IH]; [reflexivity|].
  cbn [repeat_op] in *. rewrite IH. reflexivity.
Qed.

(** X4. A protected call that is throttled [n] times and then is not has
    slept [n] times, for the delays that 1, 2, ..., [n] calls of
    [increase_delay()] give from the delay it started with, has made
    [n + 1] attempts, and leaves the object as [n] calls of
    [increase_delay()] leave it, followed by one [decrease_delay()] when
    the last attempt returned, raised a boto2 error, or raised a boto3
    error whose response carries a code, and by none when it raised any
    other [Exception] or a boto3 error without a code. *)
Theorem _call_backoff_state (n extra : nat) f a k :
  forall m,
  (forall i, (i < n)%nat ->
     throttled (boto2_throttle_strings (self m))
       (fst (f a k (world_after i f a k (world m)))) = true) ->
  throttled (boto2_throttle_strings (self m))
    (fst (f a k (world_after n f a k (world m)))) = false ->
  fatal (fst (f a k (world_after n f a k (world m)))) = false ->
  exists m' tr,
    _call (S n + extra) f a k m =
      Some (propagated (fst (f a k (world_after n f a k (world m)))), m') /\
    trace m' = trace m ++ tr /\
    sleeps tr =
      map (fun j => delay (repeat_op increase_delay j (self m))) (seq 1 n) /\
    length (attempts tr) = S n /\
    self m' =
      match fst (f a k (world_after n f a k (world m))) with
      | Returns _
      | Raises (BotoServerError _ _ _ _)
      | Raises (ClientError (Some _)) =>
        decrease_delay (repeat_op increase_delay n (self m))
      | Raises _ => repeat_op increase_delay n (self m)
      end.
Proof.
  induction n as [|n IH]; intros m Hth Hfin Hfat.
  - cbn [world_after] in Hfin, Hfat |- *.
    pose proof (_thread_unfold _ f a k m) as E.
    rewrite (_call_final _ _ _ _ _ _ _ _ E Hfin Hfat).
    destruct (fst (f a k (world m))) as [result|e];
      [|destruct e as [status reason error_code message|[code|]|msg|name
                      |name]];
      eexists; eexists; (split; [reflexivity|]); cbn;
      (split; [rewrite <- ?app_assoc; reflexivity|]); auto.
  - pose proof (_thread_unfold _ f a k m) as E.
    assert (T : throttled (boto2_throttle_strings (self m))
                  (fst (f a k (world m))) = true)
      by (apply (Hth 0%nat); lia).
    destruct (fst (f a k (world m))) as [result|e] eqn:Eo; [discriminate T|].
    cbn [throttled] in T.
    change (S (S n) + extra)%nat with (S (S n + extra)).
    rewrite (_call_throttled _ _ _ _ _ _ _ _ E T).
    set (mr := sleep_delay
                 (call_increase_delay
                    (log (EvThread f a k (Raises e))
                       (set_world m (snd (f a k (world m))))))).
    destruct (IH mr) as [m' [tr [Hc [Htr [Hsl [Hat Hself]]]]]].
    + intros i Hi. cbn. rewrite increase_delay_strings.
      apply (Hth (S i)). lia.
    + cbn. rewrite increase_delay_strings. exact Hfin.
    + exact Hfat.
    + exists m'.
      exists (EvThread f a k (Raises e) :: EvIncreaseDelay ::
              EvSleep (delay (increase_delay (self m))) :: tr).
      split; [exact Hc|]. split; [|split; [|split]].
      * rewrite Htr. cbn. rewrite <- !app_assoc. reflexivity.
      * cbn [sleeps]. rewrite Hsl. cbn [self mr sleep_delay
          call_increase_delay log set_self set_world].
        change (seq 1 (S n)) with (1%nat :: seq 2 n).
        cbn [map repeat_op]. f_equal.
        rewrite <- (List.seq_shift n 1), List.map_map.
        apply List.map_ext. intros j. rewrite repeat_op_shift. reflexivity.
      * cbn [attempts length]. rewrite Hat. reflexivity.
      * rewrite Hself. cbn [self mr sleep_delay call_increase_delay log
          set_self set_world world]. rewrite !repeat_op_shift. reflexivity.
Qed.

Lemma run_ops_app (ops1 ops2 : list BackoffOp) (s : ApiCallQueue) :
  run_ops (ops1 ++ ops2) s = run_ops ops2 (run_ops ops1 s).
Proof. unfold run_ops. apply fold_left_app. Qed.

Lemma run_ops_fields (ops : list BackoffOp) :
  forall s : ApiCallQueue,
  delay_min (run_ops ops s) = delay_min s /\
  delay_max (run_ops ops s) = delay_max s.
Proof.
  induction ops as [|op ops IH]; intros s; cbn; [split; reflexivity|].
  destruct (IH (apply_op s op)) as [E1 E2]. unfold run_ops in E1, E2.
  rewrite E1, E2.
  destruct op; cbn;
    [destruct (increase_delay_bounds s) as [F1 [F2 _]]
    |destruct (decrease_delay_bounds s) as [F1 [F2 _]]];
    split; assumption.
Qed.

(** X5. A protected call that comes to an end has changed the object only
    by calls of [increase_delay()] and [decrease_delay()]; it has not
    touched the work queue nor any result queue, and the bounds and the
    throttle strings are as they were. *)
Theorem _call_frame fuel f a k :
  forall m o m',
  _call fuel f a k m = Some (o, m') ->
  (exists ops : list BackoffOp, self m' = run_ops ops (self m)) /\
  _queue m' = _queue m /\
  result_queues m' = result_queues m /\
  next_result_queue m' = next_result_queue m /\
  delay_min (self m') = delay_min (self m) /\
  delay_max (self m') = delay_max (self m) /\
  boto2_throttle_strings (self m') = boto2_throttle_strings (self m).
Proof.
  intros m o m' H.
  assert (Hops : exists ops : list BackoffOp, self m' = run_ops ops (self m)).
  { revert m o m' H.
    induction fuel as [|fuel IH]; intros m o m' H; [discriminate H|].
    pose proof (_thread_unfold _ f a k m) as E.
    destruct (throttled (boto2_throttle_strings (self m))
                (fst (f a k (world m)))) eqn:T.
    - destruct (fst (f a k (world m))) as [result|e]; [discriminate T|].
      cbn [throttled] in T. rewrite (_call_throttled _ _ _ _ _ _ _ _ E T) in H.
      destruct (IH _ _ _ H) as [ops Hops]. exists (Increase :: ops).
      rewrite Hops. reflexivity.
    - destruct (fatal (fst (f a k (world m)))) eqn:F.
      { rewrite (_call_fatal _ _ _ _ _ _ _ _ E F) in H. discriminate H. }
      rewrite (_call_final _ _ _ _ _ _ _ _ E T F) in H.
      destruct (decreases_on (fst (f a k (world m))));
        inversion H; subst m'.
      + exists [Decrease]. reflexivity.
      + exists []. reflexivity. }
  destruct (_call_events _ _ _ _ _ _ _ _ H)
    as [tr [raw [_ [_ [_ [Q1 [Q2 [Q3 Q4]]]]]]]].
  destruct Hops as [ops Hops].
  split; [exists ops; exact Hops|]. repeat split; auto.
  - rewrite Hops. apply run_ops_fields.
  - rewrite Hops. apply run_ops_fields.
Qed.

(** The delay and the sleeps stay in bounds through a protected call. *)
Lemma _call_delay_inv fuel f a k :
  forall m o m',
  bounds_ok (self m) ->
  delay_shape (delay (self m)) ->
  _call fuel f a k m = Some (o, m') ->
  bounds_ok (self m') /\
  delay_shape (delay (self m')) /\
  exists tr,
    trace m' = trace m ++ tr /\ List.Forall sleep_in_bounds (sleeps tr).
Proof.
  induction fuel as [|fuel IH]; intros m o m' Hb Hd H; [discriminate H|].
  pose proof (_thread_unfold _ f a k m) as E.
  destruct (throttled (boto2_throttle_strings (self m))
              (fst (f a k (world m)))) eqn:T.
  - destruct (fst (f a k (world m))) as [result|e]; [discriminate T|].
    cbn [throttled] in T. rewrite (_call_throttled _ _ _ _ _ _ _ _ E T) in H.
    assert (Hb1 : bounds_ok (increase_delay (self m))).
    { destruct Hb as [Hmin Hmax], (increase_delay_bounds (self m))
        as [E1 [E2 _]]. split; congruence. }
    pose proof (increase_delay_shape _ Hb Hd) as Hd1.
    apply IH in H as [Hb' [Hd' [tr [Htr Hsl]]]]; [|exact Hb1|exact Hd1].
    split; [exact Hb'|]. split; [exact Hd'|].
    exists (EvThread f a k (Raises e) :: EvIncreaseDelay ::
            EvSleep (delay (increase_delay (self m))) :: tr).
    split.
    + rewrite Htr. cbn. rewrite <- !app_assoc. reflexivity.
    + cbn [sleeps]. apply List.Forall_cons; [|exact Hsl].
      destruct (increase_delay_value_bound _ Hb Hd) as [Hlo _].
      destruct (delay_shape_range _ Hd1) as [H0|[_ Hhi]];
        split; lra.
  - destruct (fatal (fst (f a k (world m)))) eqn:F.
    { rewrite (_call_fatal _ _ _ _ _ _ _ _ E F) in H. discriminate H. }
    rewrite (_call_final _ _ _ _ _ _ _ _ E T F) in H.
    destruct (decreases_on (fst (f a k (world m))));
      inversion H; subst m'; cbn.
    + split; [|split].
      * destruct Hb as [Hmin Hmax], (decrease_delay_bounds (self m))
          as [E1 [E2 _]]. split; congruence.
      * apply decrease_delay_shape; assumption.
      * eexists. split; [rewrite <- app_assoc; reflexivity|].
        apply List.Forall_nil.
    + split; [exact Hb|]. split; [exact Hd|].
      eexists. split; [reflexivity|]. apply List.Forall_nil.
Qed.

Lemma turn_delay_inv fuel m m' :
  bounds_ok (self m) ->
  delay_shape (delay (self m)) ->
  List.Forall sleep_in_bounds (sleeps (trace m)) ->
  _process_queue_turn fuel m = Some m' ->
  bounds_ok (self m') /\
  delay_shape (delay (self m')) /\
  List.Forall sleep_in_bounds (sleeps (trace m')).
Proof.
  intros Hb Hd Hs H. unfold _process_queue_turn in H.
  destruct (_queue m) as [|entry rest].
  { inversion H; subst. auto. }
  destruct (_call fuel (api_function entry) (args entry) (kwargs entry)
              (log (EvDequeue entry) (set_queue m rest)))
    as [[o m2]|] eqn:Hcall; [|discriminate H].
  destruct (_call_delay_inv _ _ _ _
              (log (EvDequeue entry) (set_queue m rest)) _ _ Hb Hd Hcall)
    as [Hb2 [Hd2 [tr [Htr Hsl]]]].
  unfold result_queue_put in H.
  destruct (result_queues m2 !! result_queue entry) as [[|v vs]|];
    try discriminate H.
  assert (Hs2 : List.Forall sleep_in_bounds (sleeps (trace m2))).
  { rewrite Htr. cbn. rewrite !sleeps_app. cbn. rewrite app_nil_r.
    apply List.Forall_app. split; assumption. }
  destruct (Qlt_le_dec 0 _) as [Hpos|Hpos]; inversion H; subst m'; cbn;
    (split; [exact Hb2|]); (split; [exact Hd2|]).
  - rewrite !sleeps_app. cbn. rewrite app_nil_r.
    apply List.Forall_app. split; [exact Hs2|].
    apply List.Forall_cons; [|apply List.Forall_nil].
    cbn in Hpos. destruct (delay_shape_range _ Hd2) as [H0|[Hlo Hhi]];
      split; lra.
  - rewrite sleeps_app. cbn. rewrite app_nil_r. exact Hs2.
Qed.

(** X6. Whatever the calls made and the turns taken, the delay of the
    queue is 0 or lies in [0.25, 30], and every sleep of the dispatcher,
    between retries or between calls, lasts no less than 0.25 and no more
    than 30 seconds. *)
Theorem run_delay_bounds fuel (acts : list (Action World)) (w : World) m :
  run fuel acts (new_machine w) = Some m ->
  (value (delay (self m)) == 0 \/
   (0.25 <= value (delay (self m)) /\ value (delay (self m)) <= 30)) /\
  List.Forall sleep_in_bounds (sleeps (trace m)).
Proof.
  assert (G : forall m0 m1,
            bounds_ok (self m0) -> delay_shape (delay (self m0)) ->
            List.Forall sleep_in_bounds (sleeps (trace m0)) ->
            run fuel acts m0 = Some m1 ->
            delay_shape (delay (self m1)) /\
            List.Forall sleep_in_bounds (sleeps (trace m1))).
  { induction acts as [|act acts IH]; intros m0 m1 Hb Hd Hs H; cbn in H.
    - inversion H; subst. auto.
    - destruct (step fuel m0 act) as [m2|] eqn:Hstep; [|discriminate H].
      destruct act as [f a k|]; cbn in Hstep.
      + inversion Hstep; subst m2.
        refine (IH _ m1 _ _ _ H); [exact Hb|exact Hd|].
        cbn. rewrite sleeps_app. cbn. rewrite app_nil_r. exact Hs.
      + destruct (turn_delay_inv _ _ _ Hb Hd Hs Hstep) as [Hb2 [Hd2 Hs2]].
        apply (IH _ _ Hb2 Hd2 Hs2 H). }
  intros H. destruct (G (new_machine w) m) as [Hd Hs].
  - split; reflexivity.
  - cbn. lia.
  - apply List.Forall_nil.
  - exact H.
  - split; [apply delay_shape_range; exact Hd|exact Hs].
Qed.

End CallBackoff.

(** * What the callers get *)

Section CallerFacts.

Variable World : Type.
Implicit Types (m : Machine World) (f : ApiFunction World).
Implicit Types (a : list PyVal) (k : list (string * PyVal)).

(** X7. In any state the coroutines can reach, when the protected call of
    the head entry comes to an end, the dispatcher's turn comes to an end
    and the caller of that entry, resumed, gets that outcome: [call]
    returns the value the protected call returned, when it is not an
    [Exception] instance, and raises the exception the protected call
    raised, when it is an [Exception]. *)
Theorem call_delivers_outcome fuel (acts : list (Action World)) (w : World)
    m entry rest o m2 :
  run fuel acts (new_machine w) = Some m ->
  _queue m = entry :: rest ->
  _call fuel (api_function entry) (args entry) (kwargs entry)
    (log (EvDequeue entry) (set_queue m rest)) = Some (o, m2) ->
  exists m3 m4,
    _process_queue_turn fuel m = Some m3 /\
    call_resume (result_queue entry) m3 =
      Some (raise_or_return (caught o), m4) /\
    match o with
    | Returns v =>
      isinstance_Exception v = false -> raise_or_return (caught o) = Returns v
    | Raises e =>
      is_Exception e = true -> raise_or_return (caught o) = Raises e
    end.
Proof.
  intros H Hq Hcall.
  pose proof (inv_run _ _ _ _ _ _ (inv_new _ w) H) as I.
  assert (Hc : result_queues m !! result_queue entry = Some []).
  { apply (inv_unwritten _ _ _ I). rewrite Hq. left. reflexivity. }
  destruct (_process_queue_turn_spec _ _ _ _ _ _ _ Hq Hc Hcall)
    as [m3 [sl [Hturn [_ [_ [_ [Hr3 _]]]]]]].
  assert (Hl : result_queues m3 !! result_queue entry = Some [caught o]).
  { rewrite Hr3. apply lookup_insert_eq. }
  exists m3. eexists. split; [exact Hturn|].
  split; [apply (call_resume_spec _ _ _ _ _ Hl)|].
  destruct o as [v|e]; cbn.
  - intros Hv. destruct v as [| | | |e]; try reflexivity.
    cbn in Hv |- *. rewrite Hv. reflexivity.
  - intros He. rewrite He. reflexivity.
Qed.

(** X8. In any state the coroutines can reach, a caller whose entry is
    still in the work queue stays suspended ([result_queue.get()] has
    nothing to give), and a caller whose result has been put is resumed
    with that result and leaves its result queue empty: a second [get]
    on it would wait. *)
Theorem caller_resumed_once fuel (acts : list (Action World)) (w : World) m :
  run fuel acts (new_machine w) = Some m ->
  (forall entry,
     In entry (_queue m) -> call_resume (result_queue entry) m = None) /\
  (forall chan result,
     In (chan, result) (delivered (trace m)) ->
     exists m',
       call_resume chan m = Some (raise_or_return result, m') /\
       call_resume chan m' = None).
Proof.
  intros H. pose proof (inv_run _ _ _ _ _ _ (inv_new _ w) H) as I.
  split.
  - intros entry Hin. unfold call_resume.
    rewrite (inv_unwritten _ _ _ I entry Hin). reflexivity.
  - intros chan result Hin.
    pose proof (inv_written _ _ _ I chan result Hin) as Hl.
    eexists. split; [apply (call_resume_spec _ _ _ _ _ Hl)|].
    unfold call_resume. cbn. rewrite lookup_insert_eq. reflexivity.
Qed.

Lemma _process_queue_drain (strings : list string) fuel (n : nat) :
  forall m,
  dispatcher_inv strings m ->
  length (_queue m) = n ->
  (forall entry, In entry (_queue m) ->
     forall w', settles_within fuel strings (api_function entry)
                  (args entry) (kwargs entry) w') ->
  exists m',
    _process_queue n fuel m = Some m' /\
    dispatcher_inv strings m' /\
    _queue m' = [] /\
    dequeued_entries (trace m') = dequeued_entries (trace m) ++ _queue m.
Proof.
  induction n as [|n IH]; intros m I Hlen Hs.
  - exists m. destruct (_queue m); [|discriminate Hlen].
    rewrite app_nil_r. auto.
  - destruct (_process_queue_turn_progress _ strings fuel m I)
      as [m1 [Hturn [Hq1 _]]].
    { intros entry Hin. apply Hs. exact Hin. }
    pose proof (inv_turn _ _ _ _ _ I Hturn) as I1.
    pose proof (turn_entries _ _ _ _ _ I Hturn) as He.
    destruct (_queue m) as [|entry rest] eqn:Hq; [discriminate Hlen|].
    cbn [tl] in Hq1.
    destruct (IH m1 I1) as [m' [Hrun [I' [Hq' Hd']]]].
    + rewrite Hq1. cbn in Hlen. lia.
    + intros e Hin. apply Hs. right. rewrite Hq1 in Hin. exact Hin.
    + exists m'. cbn [_process_queue]. rewrite Hturn.
      split; [exact Hrun|]. split; [exact I'|]. split; [exact Hq'|].
      rewrite Hd', He. reflexivity.
Qed.

(** X17. In any state the coroutines can reach, when every queued call
    settles within the fuel, as many turns of [_process_queue] as there
    are queued entries empty the work queue: each entry has been taken
    and its result delivered, in the order of the queue, and a further
    turn finds nothing to do. *)
Theorem _process_queue_drains fuel (acts : list (Action World)) (w : World) m :
  run fuel acts (new_machine w) = Some m ->
  (forall entry, In entry (_queue m) ->
     forall w', settles_within fuel (boto2_throttle_strings __init__)
                  (api_function entry) (args entry) (kwargs entry) w') ->
  exists m',
    _process_queue (length (_queue m)) fuel m = Some m' /\
    _queue m' = [] /\
    map fst (delivered (trace m')) =
      map fst (delivered (trace m)) ++ map result_queue (_queue m) /\
    _process_queue_turn fuel m' = Some m'.
Proof.
  intros H Hs. pose proof (inv_run _ _ _ _ _ _ (inv_new _ w) H) as I.
  destruct (_process_queue_drain _ fuel (length (_queue m)) m I eq_refl Hs)
    as [m' [Hrun [I' [Hq' Hd']]]].
  exists m'. split; [exact Hrun|]. split; [exact Hq'|]. split.
  - rewrite (inv_delivered _ _ _ I'), (inv_delivered _ _ _ I).
    rewrite !dequeued_entries_ids, Hd', map_app. reflexivity.
  - unfold _process_queue_turn. rewrite Hq'. reflexivity.
Qed.

End CallerFacts.

(** * The retry decorator *)

Section RetryFacts.

Variable World : Type.
Implicit Types (f : ApiFunction World) (w : World).
Implicit Types (a : list PyVal) (k : list (string * PyVal)).
Implicit Types (excs : ExcSpec) (retries i : Z) (delay : PyNum).
Implicit Types (ev : list RetryEvent).

Lemma max_tries_pos retries : (1 <= max_tries retries)%nat.
Proof. unfold max_tries. lia. Qed.

Lemma wrapper_loop_total (fuel : nat) excs retries delay f a k :
  forall i w ev,
  (max_tries (retries - i + 1) <= fuel)%nat ->
  exists o w' ev',
    wrapper_loop fuel excs retries delay f a k i w ev = Some (o, w', ev ++ ev') /\
    (1 <= rtries ev')%nat /\
    (rtries ev' <= max_tries (retries - i + 1))%nat /\
    rsleeps ev' = List.repeat delay (rtries ev' - 1).
Proof.
  induction fuel as [|fuel IH]; intros i w ev Hfuel.
  { pose proof (max_tries_pos (retries - i + 1)). lia. }
  cbn [wrapper_loop]. destruct (f a k w) as [o w1]. cbn zeta.
  destruct (caught_by excs (try_outcome o)).
  - destruct (i >=? retries)%Z eqn:Hi.
    + exists (try_outcome o), w1, [RTry i o]. cbn. repeat split; auto.
      apply max_tries_pos.
    + rewrite Z.geb_leb in Hi. apply Z.leb_gt in Hi.
      destruct (IH (i + 1)%Z w1 ((ev ++ [RTry i o]) ++ [RSleep delay]))
        as [o' [w' [ev' [Hrun [Hlo [Hhi Hsl]]]]]].
      { unfold max_tries in *. lia. }
      exists o', w', (RTry i o :: RSleep delay :: ev').
      split; [rewrite Hrun, <- !app_assoc; reflexivity|].
      cbn [rtries rsleeps]. split; [lia|]. split.
      * unfold max_tries in *. lia.
      * rewrite Hsl. replace (S (rtries ev') - 1)%nat
          with (S (rtries ev' - 1)) by lia. reflexivity.
  - exists (try_outcome o), w1, [RTry i o]. cbn. repeat split; auto.
    apply max_tries_pos.
Qed.

(** X9. [retry] always comes to an end: it calls the function once at
    least and [retries] times at most (once when [retries] is 1, 0 or
    negative), and sleeps for [delay] between two calls and at no other
    time. *)
Theorem retry_bounded fuel excs retries delay f a k w :
  (max_tries retries <= fuel)%nat ->
  exists o w' ev,
    retry fuel excs retries delay f a k w = Some (o, w', ev) /\
    (1 <= rtries ev)%nat /\
    (rtries ev <= max_tries retries)%nat /\
    rsleeps ev = List.repeat delay (rtries ev - 1).
Proof.
  intros Hfuel. unfold retry.
  destruct (wrapper_loop_total fuel excs retries delay f a k 1%Z w [])
    as [o [w' [ev [Hrun H]]]].
  - replace (retries - 1 + 1)%Z with retries by lia. exact Hfuel.
  - replace (retries - 1 + 1)%Z with retries in H by lia.
    exists o, w', ev. split; [exact Hrun|exact H].
Qed.

Lemma wrapper_loop_settles (n extra : nat) excs retries delay f a k :
  forall i w ev,
  (Z.of_nat n < Z.max 1 (retries - i + 1))%Z ->
  (forall j, (j < n)%nat ->
     caught_by excs
       (try_outcome (fst (f a k (world_after j f a k w)))) = true) ->
  caught_by excs (try_outcome (fst (f a k (world_after n f a k w)))) = false ->
  exists ev',
    wrapper_loop (S n + extra) excs retries delay f a k i w ev =
      Some (try_outcome (fst (f a k (world_after n f a k w))),
            world_after (S n) f a k w, ev ++ ev') /\
    rtries ev' = S n /\
    rsleeps ev' = List.repeat delay n.
Proof.
  induction n as [|n IH]; intros i w ev Hn Hc Hlast.
  - cbn [world_after] in *. cbn [Nat.add wrapper_loop].
    destruct (f a k w) as [o w1]. cbn [fst snd] in *. cbn zeta.
    rewrite Hlast. exists [RTry i o]. repeat split.
  - change (S (S n) + extra)%nat with (S (S n + extra)).
    cbn [wrapper_loop world_after]. cbn [world_after] in Hlast.
    pose proof (Hc 0%nat ltac:(lia)) as H0. cbn [world_after] in H0.
    destruct (f a k w) as [o w1] eqn:Ef. cbn [fst snd] in *. cbn zeta.
    rewrite H0.
    assert (Hi : (i >=? retries)%Z = false).
    { rewrite Z.geb_leb. apply Z.leb_gt. lia. }
    rewrite Hi.
    destruct (IH (i + 1)%Z w1 ((ev ++ [RTry i o]) ++ [RSleep delay]))
      as [ev' [Hrun [Ht Hs]]].
    + lia.
    + intros j Hj. specialize (Hc (S j) ltac:(lia)).
      cbn [world_after] in Hc. rewrite Ef in Hc. exact Hc.
    + exact Hlast.
    + exists (RTry i o :: RSleep delay :: ev').
      split; [rewrite Hrun, <- !app_assoc; reflexivity|].
      cbn [rtries rsleeps List.repeat]. rewrite Ht, Hs. split; reflexivity.
Qed.

(** X10. [retry] stops at the first try that ends with something [excs]
    does not match, and hands that on.  After [n] tries that ended with
    something [excs] matches, with [n] below the number of tries allowed,
    it has called the function [n + 1] times and slept [n] times, and:
    when the last call returned a value that line 215 can format (any
    value but a tuple of a length other than 1) and [excs] does not match
    [gen.Return], it returns that value; when the last call returned a
    tuple of a length other than 1 and [excs] does not match [TypeError],
    it raises the [TypeError] of line 215; when the last call raised an
    exception that [excs] does not match, it raises that exception. *)
Theorem retry_settles (n extra : nat) excs retries delay f a k w
    (ended : Outcome) :
  (n < max_tries retries)%nat ->
  (forall j, (j < n)%nat ->
     caught_by excs
       (try_outcome (fst (f a k (world_after j f a k w)))) = true) ->
  match fst (f a k (world_after n f a k w)) with
  | Returns (VTuple items) =>
    if (length items =? 1)%nat
    then catches_Return excs = false /\ ended = Returns (VTuple items)
    else catches excs (OtherException "TypeError") = false /\
         ended = Raises (OtherException "TypeError")
  | Returns ret => catches_Return excs = false /\ ended = Returns ret
  | Raises e => catches excs e = false /\ ended = Raises e
  end ->
  exists ev,
    retry (S n + extra) excs retries delay f a k w =
      Some (ended, world_after (S n) f a k w, ev) /\
    rtries ev = S n /\
    rsleeps ev = List.repeat delay n.
Proof.
  intros Hn Hc Hlast. unfold retry.
  assert (H : caught_by excs
                (try_outcome (fst (f a k (world_after n f a k w)))) = false /\
              ended = try_outcome (fst (f a k (world_after n f a k w)))).
  { destruct (fst (f a k (world_after n f a k w))) as [ret|e].
    - destruct ret as [| | |items|e]; cbn in Hlast |- *; try exact Hlast.
      destruct (length items =? 1)%nat; exact Hlast.
    - exact Hlast. }
  destruct H as [Hl ->].
  destruct (wrapper_loop_settles n extra excs retries delay f a k 1%Z w [])
    as [ev [Hrun H]]; auto.
  - unfold max_tries in Hn. lia.
  - exists ev. split; [exact Hrun|exact H].
Qed.

Lemma wrapper_loop_exhausted (n extra : nat) excs retries delay f a k :
  forall i w ev,
  Z.of_nat (S n) = Z.max 1 (retries - i + 1) ->
  (forall j, (j <= n)%nat ->
     caught_by excs
       (try_outcome (fst (f a k (world_after j f a k w)))) = true) ->
  exists ev',
    wrapper_loop (S n + extra) excs retries delay f a k i w ev =
      Some (try_outcome (fst (f a k (world_after n f a k w))),
            world_after (S n) f a k w, ev ++ ev') /\
    rtries ev' = S n /\
    rsleeps ev' = List.repeat delay n.
Proof.
  induction n as [|n IH]; intros i w ev Hn Hc.
  - pose proof (Hc 0%nat ltac:(lia)) as H0.
    cbn [world_after] in *. cbn [Nat.add wrapper_loop].
    destruct (f a k w) as [o w1]. cbn [fst snd] in *. cbn zeta. rewrite H0.
    assert (Hi : (i >=? retries)%Z = true).
    { rewrite Z.geb_leb. apply Z.leb_le. lia. }
    rewrite Hi. exists [RTry i o]. repeat split.
  - change (S (S n) + extra)%nat with (S (S n + extra)).
    cbn [wrapper_loop world_after].
    pose proof (Hc 0%nat ltac:(lia)) as H0. cbn [world_after] in H0.
    destruct (f a k w) as [o w1] eqn:Ef. cbn [fst snd] in *. cbn zeta.
    rewrite H0.
    assert (Hi : (i >=? retries)%Z = false).
    { rewrite Z.geb_leb. apply Z.leb_gt. lia. }
    rewrite Hi.
    destruct (IH (i + 1)%Z w1 ((ev ++ [RTry i o]) ++ [RSleep delay]))
      as [ev' [Hrun [Ht Hs]]].
    + lia.
    + intros j Hj. specialize (Hc (S j) ltac:(lia)).
      cbn [world_after] in Hc. rewrite Ef in Hc. exact Hc.
    + exists (RTry i o :: RSleep delay :: ev').
      split; [rewrite Hrun, <- !app_assoc; reflexivity|].
      cbn [rtries rsleeps List.repeat]. rewrite Ht, Hs. split; reflexivity.
Qed.

Lemma retry_exhausted (extra : nat) excs retries delay f a k w :
  (forall j, (j < max_tries retries)%nat ->
     caught_by excs
       (try_outcome (fst (f a k (world_after j f a k w)))) = true) ->
  exists ev,
    retry (max_tries retries + extra) excs retries delay f a k w =
      Some (try_outcome
              (fst (f a k (world_after (max_tries retries - 1) f a k w))),
            world_after (max_tries retries) f a k w, ev) /\
    rtries ev = max_tries retries /\
    rsleeps ev = List.repeat delay (max_tries retries - 1).
Proof.
  intros Hc. pose proof (max_tries_pos retries) as Hpos.
  destruct (max_tries retries) as [|n] eqn:En; [lia|].
  replace (S n - 1)%nat with n by lia. unfold retry.
  destruct (wrapper_loop_exhausted n extra excs retries delay f a k 1%Z w [])
    as [ev [Hrun H]].
  - unfold max_tries in En. lia.
  - intros j Hj. apply Hc. lia.
  - exists ev. split; [exact Hrun|exact H].
Qed.

(** X11. When every call of the function raises an exception that [excs]
    matches, [retry] calls it [retries] times (once when [retries] is
    below 1), sleeping for [delay] between the calls, and then raises the
    exception of the last call. *)
Theorem retry_raises_last (extra : nat) excs retries delay f a k w :
  (forall j, (j < max_tries retries)%nat ->
     exists e,
       fst (f a k (world_after j f a k w)) = Raises e /\
       catches excs e = true) ->
  exists e ev,
    fst (f a k (world_after (max_tries retries - 1) f a k w)) = Raises e /\
    retry (max_tries retries + extra) excs retries delay f a k w =
      Some (Raises e, world_after (max_tries retries) f a k w, ev) /\
    rtries ev = max_tries retries /\
    rsleeps ev = List.repeat delay (max_tries retries - 1).
Proof.
  intros Hc.
  destruct (Hc (max_tries retries - 1)%nat) as [e [He _]].
  { pose proof (max_tries_pos retries). lia. }
  destruct (retry_exhausted extra excs retries delay f a k w)
    as [ev [Hrun H]].
  - intros j Hj. destruct (Hc j Hj) as [e' [E C]]. rewrite E. exact C.
  - exists e, ev. split; [exact He|]. rewrite He in Hrun.
    split; [exact Hrun|exact H].
Qed.

(** X12. When [excs] matches [tornado.gen.Return] (as [Exception] does),
    the [gen.Return] by which [wrapper] hands on a result is caught by its
    own [except] clause: a function whose every call returns a value that
    line 215 can format (any value but a tuple of a length other than 1)
    is still called [retries] times, with the sleeps between, and the
    value handed on is the one of the last call. *)
Theorem retry_repeats_success (extra : nat) excs retries delay f a k w :
  catches_Return excs = true ->
  (forall j, (j < max_tries retries)%nat ->
     exists v,
       fst (f a k (world_after j f a k w)) = Returns v /\
       (forall items, v = VTuple items -> length items = 1%nat)) ->
  exists v ev,
    fst (f a k (world_after (max_tries retries - 1) f a k w)) = Returns v /\
    retry (max_tries retries + extra) excs retries delay f a k w =
      Some (Returns v, world_after (max_tries retries) f a k w, ev) /\
    rtries ev = max_tries retries /\
    rsleeps ev = List.repeat delay (max_tries retries - 1).
Proof.
  intros HR Hc.
  assert (Hf : forall v,
            (forall items, v = VTuple items -> length items = 1%nat) ->
            try_outcome (Returns v) = Returns v).
  { intros v Hv. destruct v as [| | |items|e]; try reflexivity.
    cbn. rewrite (Hv items eq_refl). reflexivity. }
  destruct (Hc (max_tries retries - 1)%nat) as [v [Hv Hfmt]].
  { pose proof (max_tries_pos retries). lia. }
  destruct (retry_exhausted extra excs retries delay f a k w)
    as [ev [Hrun H]].
  - intros j Hj. destruct (Hc j Hj) as [v' [E F]].
    rewrite E, (Hf v' F). exact HR.
  - exists v, ev. split; [exact Hv|]. rewrite Hv, (Hf v Hfmt) in Hrun.
    split; [exact Hrun|exact H].
Qed.

End RetryFacts.

(** * Runs of the sample callables, continued *)

Lemma decrease_undoes_increase_witness :
  value (delay (run_ops [Increase; Increase] __init__)) * 2 <= 30 /\
  value (delay (decrease_delay
                  (increase_delay (run_ops [Increase; Increase] __init__)))) ==
  value (delay (run_ops [Increase; Increase] __init__)).
Proof.
  split; [vm_compute; intros H; discriminate H|].
  apply (decrease_undoes_increase [Increase; Increase]).
  vm_compute. intros H. discriminate H.
Defined.

Lemma _call_backoff_state_witness :
  (forall i, (i < 2)%nat ->
     throttled (boto2_throttle_strings (self (new_machine 0%nat)))
       (fst (throttled_twice [] []
               (world_after i throttled_twice [] []
                  (world (new_machine 0%nat))))) = true) /\
  throttled (boto2_throttle_strings (self (new_machine 0%nat)))
    (fst (throttled_twice [] []
            (world_after 2 throttled_twice [] []
               (world (new_machine 0%nat))))) = false /\
  fatal (fst (throttled_twice [] []
                (world_after 2 throttled_twice [] []
                   (world (new_machine 0%nat))))) = false /\
  exists m' tr,
    _call (3 + 0) throttled_twice [] [] (new_machine 0%nat) =
      Some (propagated
              (fst (throttled_twice [] []
                      (world_after 2 throttled_twice [] []
                         (world (new_machine 0%nat))))), m') /\
    trace m' = trace (new_machine 0%nat) ++ tr /\
    sleeps tr =
      map (fun j => delay (repeat_op increase_delay j
                             (self (new_machine 0%nat)))) (seq 1 2) /\
    length (attempts tr) = 3%nat /\
    self m' =
      match fst (throttled_twice [] []
                   (world_after 2 throttled_twice [] []
                      (world (new_machine 0%nat)))) with
      | Returns _
      | Raises (BotoServerError _ _ _ _)
      | Raises (ClientError (Some _)) =>
        decrease_delay
          (repeat_op increase_delay 2 (self (new_machine 0%nat)))
      | Raises _ => repeat_op increase_delay 2 (self (new_machine 0%nat))
      end.
Proof.
  assert (H1 : forall i, (i < 2)%nat ->
            throttled (boto2_throttle_strings (self (new_machine 0%nat)))
              (fst (throttled_twice [] []
                      (world_after i throttled_twice [] []
                         (world (new_machine 0%nat))))) = true).
  { intros i Hi. destruct i as [|[|i]]; [reflexivity|reflexivity|lia]. }
  split; [exact H1|]. split; [reflexivity|]. split; [reflexivity|].
  apply (_call_backoff_state nat 2 0 throttled_twice [] []
           (new_machine 0%nat) H1); reflexivity.
Defined.

(** A boto3 error without a code after the delay has been raised twice:
    the delay stays where the two [increase_delay()] calls left it. *)
Lemma no_code_keeps_delay :
  option_map (fun r => (fst r, Qred (value (delay (self (snd r))))))
    (_call 3 (flaky 2 rate_exceeded (Raises no_code)) [] []
       (new_machine 0%nat)) =
  Some (Raises KeyError, 1 # 2).
Proof. vm_compute; reflexivity. Qed.

Lemma _call_frame_witness :
  exists m',
    _call 3 throttled_twice [] [] (new_machine 0%nat) =
      Some (Returns (VInt 7), m') /\
    ((exists ops : list BackoffOp,
        self m' = run_ops ops (self (new_machine 0%nat))) /\
     _queue m' = _queue (new_machine 0%nat) /\
     result_queues m' = result_queues (new_machine 0%nat) /\
     next_result_queue m' = next_result_queue (new_machine 0%nat) /\
     delay_min (self m') = delay_min (self (new_machine 0%nat)) /\
     delay_max (self m') = delay_max (self (new_machine 0%nat)) /\
     boto2_throttle_strings (self m') =
       boto2_throttle_strings (self (new_machine 0%nat))).
Proof.
  eexists. split; [vm_compute; reflexivity|].
  apply (_call_frame nat 3 throttled_twice [] [] (new_machine 0%nat)
           (Returns (VInt 7))).
  vm_compute; reflexivity.
Defined.

Lemma run_delay_bounds_witness :
  exists m,
    run 3 sample_schedule (new_machine 0%nat) = Some m /\
    ((value (delay (self m)) == 0 \/
      (0.25 <= value (delay (self m)) /\ value (delay (self m)) <= 30)) /\
     List.Forall sleep_in_bounds (sleeps (trace m))).
Proof.
  eexists. split; [vm_compute; reflexivity|].
  apply (run_delay_bounds nat 3 sample_schedule 0%nat).
  vm_compute; reflexivity.
Defined.

(** The sample schedule: the sleeps taken, in order. *)
Lemma sample_schedule_sleeps :
  option_map (fun m => map (fun d => Qred (value d)) (sleeps (trace m)))
    (run 3 sample_schedule (new_machine 0%nat)) =
  Some [1 # 4; 1 # 2; 1 # 4].
Proof. vm_compute; reflexivity. Qed.

Lemma call_delivers_outcome_witness :
  exists m2,
    (run 3 [ACall throttled_twice [] []] (new_machine 0%nat) =
       Some (snd (call_submit throttled_twice [] [] (new_machine 0%nat))) /\
     _queue (snd (call_submit throttled_twice [] [] (new_machine 0%nat))) =
       mkPendingCall 0%nat throttled_twice [] [] :: [] /\
     _call 3 throttled_twice [] []
       (log (EvDequeue (mkPendingCall 0%nat throttled_twice [] []))
          (set_queue
             (snd (call_submit throttled_twice [] [] (new_machine 0%nat)))
             [])) =
       Some (Returns (VInt 7), m2)) /\
    exists m3 m4,
      _process_queue_turn 3
        (snd (call_submit throttled_twice [] [] (new_machine 0%nat))) =
        Some m3 /\
      call_resume 0%nat m3 =
        Some (raise_or_return (caught (Returns (VInt 7))), m4) /\
      (isinstance_Exception (VInt 7) = false ->
       raise_or_return (caught (Returns (VInt 7))) = Returns (VInt 7)).
Proof.
  eexists. split.
  { split; [reflexivity|]. split; [reflexivity|vm_compute; reflexivity]. }
  eapply (call_delivers_outcome nat 3 [ACall throttled_twice [] []] 0%nat
            (snd (call_submit throttled_twice [] [] (new_machine 0%nat)))
            (mkPendingCall 0%nat throttled_twice [] []) []
            (Returns (VInt 7)));
    [reflexivity|reflexivity|vm_compute; reflexivity].
Defined.

Lemma caller_resumed_once_witness :
  exists m,
    run 3 sample_schedule (new_machine 0%nat) = Some m /\
    ((forall entry,
        In entry (_queue m) -> call_resume (result_queue entry) m = None) /\
     (forall chan result,
        In (chan, result) (delivered (trace m)) ->
        exists m',
          call_resume chan m = Some (raise_or_return result, m') /\
          call_resume chan m' = None)).
Proof.
  eexists. split; [vm_compute; reflexivity|].
  apply (caller_resumed_once nat 3 sample_schedule 0%nat).
  vm_compute; reflexivity.
Defined.

Lemma retry_bounded_witness :
  (max_tries 3 <= 3)%nat /\
  exists o w' ev,
    retry 3 only_boto2 3 (PyFloat 0.25) throttled_twice [] [] 0%nat =
      Some (o, w', ev) /\
    (1 <= rtries ev)%nat /\
    (rtries ev <= max_tries 3)%nat /\
    rsleeps ev = List.repeat (PyFloat 0.25) (rtries ev - 1).
Proof.
  split; [vm_compute; lia|].
  apply (retry_bounded nat 3 only_boto2 3 (PyFloat 0.25) throttled_twice
           [] [] 0%nat).
  vm_compute; lia.
Defined.

Lemma retry_settles_witness :
  ((2 < max_tries 3)%nat /\
   (forall j, (j < 2)%nat ->
      caught_by only_boto2
        (try_outcome
           (fst (throttled_twice [] []
                   (world_after j throttled_twice [] [] 0%nat)))) = true) /\
   fst (throttled_twice [] [] (world_after 2 throttled_twice [] [] 0%nat)) =
     Returns (VInt 7) /\
   catches_Return only_boto2 = false) /\
  exists ev,
    retry (3 + 0) only_boto2 3 (PyFloat 0.25) throttled_twice [] [] 0%nat =
      Some (Returns (VInt 7), world_after 3 throttled_twice [] [] 0%nat, ev) /\
    rtries ev = 3%nat /\
    rsleeps ev = List.repeat (PyFloat 0.25) 2.
Proof.
  assert (H1 : forall j, (j < 2)%nat ->
            caught_by only_boto2
              (try_outcome
                 (fst (throttled_twice [] []
                         (world_after j throttled_twice [] [] 0%nat)))) =
            true).
  { intros j Hj. destruct j as [|[|j]]; [reflexivity|reflexivity|lia]. }
  split; [split; [vm_compute; lia|split; [exact H1|split; reflexivity]]|].
  apply (retry_settles nat 2 0 only_boto2 3 (PyFloat 0.25) throttled_twice
           [] [] 0%nat (Returns (VInt 7)));
    [vm_compute; lia|exact H1|split; reflexivity].
Defined.

(** A function that returns a pair: [retry(excs=BotoServerError)] raises
    the [TypeError] of line 215 after one call, and
    [retry(excs=Exception, retries=3)] after three. *)
Lemma retry_pair_type_error :
  option_map (fun r => (fst (fst r), rtries (snd r)))
    (retry 3 only_boto2 3 (PyFloat 0.25) returns_pair [] [] 0%nat) =
  Some (Raises TypeError, 1%nat) /\
  option_map (fun r => (fst (fst r), rtries (snd r)))
    (retry 3 any_Exception 3 (PyFloat 0.25) returns_pair [] [] 0%nat) =
  Some (Raises TypeError, 3%nat).
Proof. split; vm_compute; reflexivity. Qed.

Lemma retry_raises_last_witness :
  (forall j, (j < max_tries 2)%nat ->
     exists e,
       fst (always (Raises rate_exceeded) [] []
              (world_after j (always (Raises rate_exceeded)) [] [] 0%nat)) =
         Raises e /\
       catches only_boto2 e = true) /\
  exists e ev,
    fst (always (Raises rate_exceeded) [] []
           (world_after (max_tries 2 - 1) (always (Raises rate_exceeded))
              [] [] 0%nat)) = Raises e /\
    retry (max_tries 2 + 0) only_boto2 2 (PyFloat 0.25)
      (always (Raises rate_exceeded)) [] [] 0%nat =
      Some (Raises e,
            world_after (max_tries 2) (always (Raises rate_exceeded))
              [] [] 0%nat, ev) /\
    rtries ev = max_tries 2 /\
    rsleeps ev = List.repeat (PyFloat 0.25) (max_tries 2 - 1).
Proof.
  assert (H1 : forall j, (j < max_tries 2)%nat ->
            exists e,
              fst (always (Raises rate_exceeded) [] []
                     (world_after j (always (Raises rate_exceeded))
                        [] [] 0%nat)) = Raises e /\
              catches only_boto2 e = true).
  { intros j Hj. exists rate_exceeded.
    destruct j as [|[|j]];
      [split; reflexivity|split; reflexivity|vm_compute in Hj; lia]. }
  split; [exact H1|].
  apply (retry_raises_last nat 0 only_boto2 2 (PyFloat 0.25)
           (always (Raises rate_exceeded)) [] [] 0%nat H1).
Defined.

Lemma retry_repeats_success_witness :
  (catches_Return any_Exception = true /\
   forall j, (j < max_tries 3)%nat ->
     exists v,
       fst (always (Returns (VInt 7)) [] []
              (world_after j (always (Returns (VInt 7))) [] [] 0%nat)) =
       Returns v /\
       (forall items, v = VTuple items -> length items = 1%nat)) /\
  exists v ev,
    fst (always (Returns (VInt 7)) [] []
           (world_after (max_tries 3 - 1) (always (Returns (VInt 7)))
              [] [] 0%nat)) = Returns v /\
    retry (max_tries 3 + 0) any_Exception 3 (PyFloat 0.25)
      (always (Returns (VInt 7))) [] [] 0%nat =
      Some (Returns v,
            world_after (max_tries 3) (always (Returns (VInt 7)))
              [] [] 0%nat, ev) /\
    rtries ev = max_tries 3 /\
    rsleeps ev = List.repeat (PyFloat 0.25) (max_tries 3 - 1).
Proof.
  assert (H1 : forall j, (j < max_tries 3)%nat ->
            exists v,
              fst (always (Returns (VInt 7)) [] []
                     (world_after j (always (Returns (VInt 7)))
                        [] [] 0%nat)) = Returns v /\
              (forall items, v = VTuple items -> length items = 1%nat)).
  { intros j Hj. exists (VInt 7).
    split; [|intros items Hv; discriminate Hv].
    destruct j as [|[|[|j]]];
      [reflexivity|reflexivity|reflexivity|vm_compute in Hj; lia]. }
  split; [split; [reflexivity|exact H1]|].
  apply (retry_repeats_success nat 0 any_Exception 3 (PyFloat 0.25)
           (always (Returns (VInt 7))) [] [] 0%nat eq_refl H1).
Defined.

(** The docstring's [excs=(Exception)] with [retries=3]: a function that
    returns 7 at once is called three times. *)
Lemma retry_docstring_example :
  option_map (fun r => (fst (fst r), rtries (snd r)))
    (retry 3 any_Exception 3 (PyFloat 0.25) (always (Returns (VInt 7)))
       [] [] 0%nat) =
  Some (Returns (VInt 7), 3%nat).
Proof. vm_compute; reflexivity. Qed.

(** * Names and tokens in strings *)

Section StringFacts.

Local Open Scope string_scope.

Lemma split_nonempty (sep : ascii) (s : string) : split sep s <> [].
Proof.
  destruct s as [|c s]; cbn; [discriminate|].
  destruct (Ascii.eqb c sep); [discriminate|].
  destruct (split sep s); discriminate.
Qed.

Lemma split_no_sep (sep : ascii) (s : string) :
  contains sep s = false -> split sep s = [s].
Proof.
  induction s as [|c s IH]; cbn; [reflexivity|].
  intros H. apply orb_false_iff in H. destruct H as [Hc Hs].
  rewrite Hc, (IH Hs). reflexivity.
Qed.

(** [sep.join(s.split(sep))] is [s]. *)
Lemma join_split (sep : ascii) (s : string) :
  join (String sep "") (split sep s) = s.
Proof.
  induction s as [|c s IH]; [reflexivity|]. cbn [split].
  pose proof (split_nonempty sep s) as Hne.
  destruct (Ascii.eqb c sep) eqn:E.
  - apply Ascii.eqb_eq in E. subst c.
    destruct (split sep s) as [|x rest]; [contradiction|].
    cbn [join] in *. rewrite IH. reflexivity.
  - destruct (split sep s) as [|x rest]; [contradiction|].
    destruct rest as [|y rest]; cbn [join] in *; rewrite <- IH; reflexivity.
Qed.

Lemma split_app (sep : ascii) (m c : string) :
  contains sep c = false ->
  split sep (m ++ String sep c) = (split sep m ++ [c])%list.
Proof.
  intros Hc. induction m as [|ch m IH]; simpl.
  - rewrite Ascii.eqb_refl, (split_no_sep sep c Hc). reflexivity.
  - rewrite IH. destruct (Ascii.eqb ch sep); [reflexivity|].
    pose proof (split_nonempty sep m) as Hne.
    destruct (split sep m) as [|x rest]; [contradiction|reflexivity].
Qed.

(** X13. [str_to_class] cuts its argument at the last dot: for a class
    name without a dot, the path [module.Class] imports [module] and looks
    [Class] up in it, a path with no dot at all asks for the module with
    the empty name, and an exception of the import is handed on. *)
Theorem str_to_class_path (PyModule PyClass : Type)
    (imp : string -> string -> PyExc + PyModule)
    (getattr : PyModule -> string -> PyExc + PyClass) (m c : string) :
  contains "." c = false ->
  str_to_class imp getattr (m ++ "." ++ c) =
    match imp m c with
    | inl e => inl e
    | inr md => getattr md c
    end /\
  str_to_class imp getattr c =
    match imp "" c with
    | inl e => inl e
    | inr md => getattr md c
    end.
Proof.
  intros Hc. unfold str_to_class. split.
  - change ("." ++ c) with (String "."%char c).
    rewrite (split_app "." m c Hc).
    rewrite List.last_last, List.removelast_last.
    rewrite (join_split "." m). reflexivity.
  - rewrite (split_no_sep "." c Hc). reflexivity.
Qed.

Lemma append_cons (c : ascii) (x y : string) :
  String c x ++ y = String c (x ++ y).
Proof. reflexivity. Qed.

Lemma append_nil_l (y : string) : "" ++ y = y.
Proof. reflexivity. Qed.

Lemma contains_app (ch : ascii) (x y : string) :
  contains ch (x ++ y) = contains ch x || contains ch y.
Proof.
  induction x as [|c x IH]; [reflexivity|].
  rewrite append_cons. simpl. rewrite IH, orb_assoc. reflexivity.
Qed.

Lemma append_assoc' (x y z : string) : (x ++ y) ++ z = x ++ (y ++ z).
Proof.
  induction x as [|c x IH]; [reflexivity|].
  rewrite !append_cons, IH. reflexivity.
Qed.

Lemma token_of_app (k post : string) :
  token_of k ++ post = String "%" (k ++ String "%" post).
Proof.
  unfold token_of. rewrite !append_cons, !append_nil_l, append_assoc'.
  rewrite append_cons, append_nil_l. reflexivity.
Qed.

Lemma pct_free_cons (c : ascii) (s : string) :
  pct_free (String c s) <-> Ascii.eqb c "%" = false /\ pct_free s.
Proof. unfold pct_free. simpl. apply orb_false_iff. Qed.

Lemma pct_free_app (x y : string) :
  pct_free (x ++ y) <-> pct_free x /\ pct_free y.
Proof. unfold pct_free. rewrite contains_app. apply orb_false_iff. Qed.

Lemma prefix_cons (a b : ascii) (x y : string) :
  String.prefix (String a x) (String b y) =
  if ascii_dec a b then String.prefix x y else false.
Proof. reflexivity. Qed.

Lemma token_of_cons (k : string) : token_of k = String "%" (k ++ "%").
Proof. reflexivity. Qed.

Lemma prefix_token_head (k : string) (c : ascii) (s : string) :
  Ascii.eqb c "%" = false -> String.prefix (token_of k) (String c s) = false.
Proof.
  intros H. rewrite token_of_cons, prefix_cons.
  destruct (ascii_dec "%" c) as [E|E]; [|reflexivity].
  subst c. rewrite Ascii.eqb_refl in H. discriminate H.
Qed.

Lemma replace_from_pct_free (k v s : string) :
  pct_free s -> replace_from 0 (token_of k) v s = s.
Proof.
  induction s as [|c s IH]; intros H; [reflexivity|].
  apply pct_free_cons in H. destruct H as [Hc Hs].
  cbn [replace_from]. rewrite (prefix_token_head k c s Hc), (IH Hs).
  reflexivity.
Qed.

Lemma findall_pct_free (s : string) : pct_free s -> findall_from 0 s = [].
Proof.
  induction s as [|c s IH]; intros H; [reflexivity|].
  apply pct_free_cons in H. destruct H as [Hc Hs].
  cbn [findall_from match_token]. rewrite Hc. apply IH. exact Hs.
Qed.

Lemma fold_replace_pct_free (environ : list (string * string)) (s : string) :
  pct_free s ->
  fold_left (fun acc kv => replace (token_of (fst kv)) (snd kv) acc)
    environ s = s.
Proof.
  intros H. induction environ as [|[k v] environ IH]; [reflexivity|].
  cbn [fold_left fst snd]. unfold replace at 2.
  rewrite (replace_from_pct_free k v s H). exact IH.
Qed.

(** X14. A string without a percent sign is returned as it is, whatever
    the environment holds. *)
Theorem populate_with_env_plain (environ : list (string * string))
    (s : string) :
  pct_free s -> populate_with_env environ s = Some s.
Proof.
  intros H. unfold populate_with_env.
  rewrite (fold_replace_pct_free environ s H).
  unfold findall. rewrite (findall_pct_free s H). reflexivity.
Qed.

Lemma prefix_contains (ch : ascii) (x : string) :
  forall y, String.prefix x y = true ->
  contains ch x = true -> contains ch y = true.
Proof.
  induction x as [|a x IH]; intros y Hp Hc; [discriminate Hc|].
  destruct y as [|b y]; [discriminate Hp|].
  rewrite prefix_cons in Hp. destruct (ascii_dec a b) as [E|E];
    [|discriminate Hp].
  subst b. simpl in Hc |- *. apply orb_true_iff in Hc.
  apply orb_true_iff. destruct Hc as [Hc|Hc]; [left; exact Hc|].
  right. apply IH; assumption.
Qed.

Lemma prefix_app (x y : string) : String.prefix x (x ++ y) = true.
Proof.
  induction x as [|a x IH]; [destruct y; reflexivity|].
  rewrite append_cons, prefix_cons.
  destruct (ascii_dec a a) as [_|N]; [exact IH|contradiction].
Qed.

(** Two keys without percent signs whose tokens start at the same place
    are the same key. *)
Lemma prefix_key (k' : string) :
  forall k post,
  pct_free k' -> pct_free k ->
  String.prefix (k' ++ "%") (k ++ String "%" post) = true -> k' = k.
Proof.
  induction k' as [|a k' IH]; intros k post H' H Hp.
  - destruct k as [|b k]; [reflexivity|].
    apply pct_free_cons in H. destruct H as [Hb _].
    rewrite append_nil_l, append_cons, prefix_cons in Hp.
    destruct (ascii_dec "%" b) as [E|E]; [|discriminate Hp].
    subst b. rewrite Ascii.eqb_refl in Hb. discriminate Hb.
  - apply pct_free_cons in H'. destruct H' as [Ha H'].
    destruct k as [|b k].
    + rewrite append_nil_l, append_cons, prefix_cons in Hp.
      destruct (ascii_dec a "%") as [E|E]; [|discriminate Hp].
      subst a. rewrite Ascii.eqb_refl in Ha. discriminate Ha.
    + apply pct_free_cons in H. destruct H as [_ H].
      rewrite !append_cons, prefix_cons in Hp.
      destruct (ascii_dec a b) as [E|E]; [|discriminate Hp].
      subst b. f_equal. apply (IH k post); assumption.
Qed.

Lemma prefix_token_post (k' post : string) :
  pct_free post -> String.prefix (token_of k') (String "%" post) = false.
Proof.
  intros H. destruct (String.prefix (token_of k') (String "%" post)) eqn:Hp;
    [|reflexivity].
  rewrite token_of_cons, prefix_cons in Hp.
  destruct (ascii_dec "%" "%") as [_|N]; [|contradiction].
  assert (Hc : contains "%" post = true).
  { apply (prefix_contains "%" _ _ Hp). rewrite contains_app. simpl.
    apply orb_true_r. }
  unfold pct_free in H. congruence.
Qed.

Lemma replace_in_key (k' v' k post : string) :
  pct_free k -> pct_free post ->
  replace_from 0 (token_of k') v' (k ++ String "%" post) =
  k ++ String "%" post.
Proof.
  intros Hk Hpost. induction k as [|c k IH].
  - rewrite append_nil_l. cbn [replace_from].
    rewrite (prefix_token_post k' post Hpost).
    rewrite (replace_from_pct_free k' v' post Hpost). reflexivity.
  - apply pct_free_cons in Hk. destruct Hk as [Hc Hk].
    rewrite append_cons. cbn [replace_from].
    rewrite (prefix_token_head k' c _ Hc), (IH Hk). reflexivity.
Qed.

(** The token of another key is left alone. *)
Lemma replace_other_key (k' v' k pre post : string) :
  pct_free k' -> pct_free k -> pct_free pre -> pct_free post ->
  k' <> k ->
  replace (token_of k') v' (pre ++ token_of k ++ post) =
  pre ++ token_of k ++ post.
Proof.
  intros Hk' Hk Hpre Hpost Hne. unfold replace.
  induction pre as [|c pre IH].
  - rewrite append_nil_l, token_of_app. cbn [replace_from].
    assert (Hp : String.prefix (token_of k')
                   (String "%" (k ++ String "%" post)) = false).
    { rewrite token_of_cons, prefix_cons.
      destruct (ascii_dec "%" "%") as [_|N]; [|contradiction].
      destruct (String.prefix (k' ++ "%") (k ++ String "%" post)) eqn:Hp;
        [|reflexivity].
      exfalso. apply Hne. apply (prefix_key k' k post); assumption. }
    rewrite Hp, (replace_in_key k' v' k post Hk Hpost). reflexivity.
  - apply pct_free_cons in Hpre. destruct Hpre as [Hc Hpre].
    rewrite append_cons. cbn [replace_from].
    rewrite (prefix_token_head k' c _ Hc), (IH Hpre). reflexivity.
Qed.

Lemma replace_from_skip (x y old new : string) :
  replace_from (String.length x) old new (x ++ y) = replace_from 0 old new y.
Proof.
  induction x as [|c x IH]; [reflexivity|].
  rewrite append_cons. cbn [String.length replace_from]. exact IH.
Qed.

(** The token of the key is replaced by its value. *)
Lemma replace_own_key (k v pre post : string) :
  pct_free pre -> pct_free post ->
  replace (token_of k) v (pre ++ token_of k ++ post) = pre ++ v ++ post.
Proof.
  intros Hpre Hpost. unfold replace. induction pre as [|c pre IH].
  - rewrite !append_nil_l.
    pose proof (prefix_app (token_of k) post) as Hp.
    rewrite token_of_app in Hp |- *. cbn [replace_from]. rewrite Hp.
    f_equal.
    assert (L : (String.length (token_of k) - 1)%nat =
                String.length (k ++ "%")).
    { rewrite token_of_cons. cbn [String.length]. lia. }
    rewrite L.
    replace (k ++ String "%" post) with ((k ++ "%") ++ post)
      by (rewrite append_assoc'; reflexivity).
    rewrite replace_from_skip.
    apply replace_from_pct_free. exact Hpost.
  - apply pct_free_cons in Hpre. destruct Hpre as [Hc Hpre].
    rewrite !append_cons. cbn [replace_from].
    rewrite (prefix_token_head k c _ Hc), (IH Hpre). reflexivity.
Qed.

Lemma fold_replace_other_keys (environ : list (string * string))
    (k pre post : string) :
  (forall k', In k' (map fst environ) -> pct_free k') ->
  ~ In k (map fst environ) ->
  pct_free k -> pct_free pre -> pct_free post ->
  fold_left (fun acc kv => replace (token_of (fst kv)) (snd kv) acc)
    environ (pre ++ token_of k ++ post) = pre ++ token_of k ++ post.
Proof.
  intros Hkeys Hnot Hk Hpre Hpost.
  induction environ as [|[k' v'] environ IH]; [reflexivity|].
  cbn [fold_left fst snd].
  rewrite replace_other_key; try assumption.
  - apply IH.
    + intros k0 H0. apply Hkeys. right. exact H0.
    + intros H0. apply Hnot. right. exact H0.
  - apply Hkeys. left. reflexivity.
  - intros E. apply Hnot. left. exact E.
Qed.

(** X15. With keys that hold no percent sign, a string whose only percent
    signs are those of one token [%k%], for a key [k] of the environment
    whose value holds no percent sign, comes back with the token replaced
    by the value. *)
Theorem populate_with_env_substitutes (environ : list (string * string))
    (k v pre post : string) :
  List.NoDup (map fst environ) ->
  (forall k', In k' (map fst environ) -> pct_free k') ->
  In (k, v) environ ->
  pct_free v -> pct_free pre -> pct_free post ->
  populate_with_env environ (pre ++ token_of k ++ post) =
  Some (pre ++ v ++ post).
Proof.
  intros Hnd Hkeys Hin Hv Hpre Hpost.
  assert (Hres : pct_free (pre ++ v ++ post)).
  { apply pct_free_app. split; [exact Hpre|].
    apply pct_free_app. split; assumption. }
  assert (Hfold :
    fold_left (fun acc kv => replace (token_of (fst kv)) (snd kv) acc)
      environ (pre ++ token_of k ++ post) = pre ++ v ++ post).
  { induction environ as [|[k' v'] environ IH]; [destruct Hin|].
    cbn [fold_left fst snd]. cbn [map fst] in Hnd.
    apply List.NoDup_cons_iff in Hnd. destruct Hnd as [Hnot Hnd].
    assert (Hk' : pct_free k') by (apply Hkeys; left; reflexivity).
    destruct Hin as [E|Hin].
    - inversion E; subst k' v'.
      rewrite (replace_own_key k v pre post Hpre Hpost).
      apply fold_replace_pct_free. exact Hres.
    - assert (Hne : k' <> k).
      { intros E. subst k'. apply Hnot.
        change k with (fst (k, v)). apply in_map. exact Hin. }
      assert (Hk : pct_free k).
      { apply Hkeys. right. change k with (fst (k, v)).
        apply in_map. exact Hin. }
      rewrite (replace_other_key k' v' k pre post Hk' Hk Hpre Hpost Hne).
      apply IH; try assumption.
      intros k0 H0. apply Hkeys. right. exact H0. }
  unfold populate_with_env. rewrite Hfold.
  unfold findall. rewrite (findall_pct_free _ Hres). reflexivity.
Qed.

Lemma is_word_not_pct (c : ascii) :
  is_word c = true -> Ascii.eqb c "%" = false.
Proof.
  intros H. destruct (Ascii.eqb c "%") eqn:E; [|reflexivity].
  apply Ascii.eqb_eq in E. subst c. discriminate H.
Qed.

Lemma all_word_pct_free (name : string) :
  all_word name = true -> pct_free name.
Proof.
  induction name as [|c name IH]; intros H; [reflexivity|].
  cbn [all_word] in H. apply andb_true_iff in H. destruct H as [Hc H].
  apply pct_free_cons. split; [apply is_word_not_pct; exact Hc|].
  apply IH. exact H.
Qed.

Lemma word_run_app (name post : string) :
  all_word name = true ->
  word_run (name ++ String "%" post) = (name, String "%" post).
Proof.
  induction name as [|c name IH]; intros H.
  - reflexivity.
  - cbn [all_word] in H. apply andb_true_iff in H. destruct H as [Hc H].
    rewrite append_cons. cbn [word_run]. rewrite Hc, (IH H). reflexivity.
Qed.

Lemma findall_token (name pre post : string) :
  name <> "" -> all_word name = true -> pct_free pre ->
  exists more,
    findall_from 0 (pre ++ token_of name ++ post) = token_of name :: more.
Proof.
  intros Hne Hw Hpre. induction pre as [|c pre IH].
  - rewrite append_nil_l, token_of_app. cbn [findall_from match_token].
    rewrite Ascii.eqb_refl, (word_run_app name post Hw).
    destruct name as [|c name]; [contradiction|].
    rewrite Ascii.eqb_refl. eexists. reflexivity.
  - apply pct_free_cons in Hpre. destruct Hpre as [Hc Hpre].
    rewrite append_cons. cbn [findall_from match_token]. rewrite Hc.
    apply IH. exact Hpre.
Qed.

(** X16. With keys that hold no percent sign, a string whose only percent
    signs are those of one token [%name%], [name] made of word characters
    and not a key of the environment, is not returned: the token is left
    in place and [InvalidEnvironment] is raised. *)
Theorem populate_with_env_unmatched (environ : list (string * string))
    (name pre post : string) :
  (forall k', In k' (map fst environ) -> pct_free k') ->
  ~ In name (map fst environ) ->
  name <> "" ->
  all_word name = true ->
  pct_free pre -> pct_free post ->
  populate_with_env environ (pre ++ token_of name ++ post) = None.
Proof.
  intros Hkeys Hnot Hne Hw Hpre Hpost. unfold populate_with_env.
  rewrite (fold_replace_other_keys environ name pre post Hkeys Hnot
             (all_word_pct_free name Hw) Hpre Hpost).
  unfold findall.
  destruct (findall_token name pre post Hne Hw Hpre) as [more E].
  rewrite E. reflexivity.
Qed.

End StringFacts.

Lemma str_to_class_path_witness :
  contains "." "Sleep" = false /\
  (str_to_class (fun module_name _ => inr (String.length module_name))
     (fun m class_name => inr (m, class_name))
     ("kingpin.actors.misc" ++ "." ++ "Sleep")%string =
     (inr (19%nat, "Sleep"%string) : PyExc + (nat * string)) /\
   str_to_class (fun module_name _ => inr (String.length module_name))
     (fun m class_name => inr (m, class_name)) "Sleep"%string =
     (inr (0%nat, "Sleep"%string) : PyExc + (nat * string))).
Proof.
  split; [reflexivity|].
  apply (str_to_class_path nat (nat * string)
           (fun module_name _ => inr (String.length module_name))
           (fun m class_name => inr (m, class_name))
           "kingpin.actors.misc" "Sleep").
  reflexivity.
Defined.

Lemma populate_with_env_plain_witness :
  pct_free "foo bar" /\
  populate_with_env [("ME", "biz")]%string "foo bar" = Some "foo bar"%string.
Proof.
  split; [reflexivity|].
  apply (populate_with_env_plain [("ME", "biz")]%string "foo bar").
  reflexivity.
Defined.

Lemma populate_with_env_substitutes_witness :
  (List.NoDup (map fst [("HOME", "/root"); ("ME", "biz")]%string) /\
   (forall k', In k' (map fst [("HOME", "/root"); ("ME", "biz")]%string) ->
      pct_free k') /\
   In ("ME", "biz")%string [("HOME", "/root"); ("ME", "biz")]%string /\
   pct_free "biz" /\ pct_free "foo " /\ pct_free " bar") /\
  populate_with_env [("HOME", "/root"); ("ME", "biz")]%string
    ("foo " ++ token_of "ME" ++ " bar")%string =
  Some ("foo " ++ "biz" ++ " bar")%string.
Proof.
  assert (Hnd : List.NoDup
                  (map fst [("HOME", "/root"); ("ME", "biz")]%string)).
  { cbn. repeat constructor; cbn; intuition discriminate. }
  assert (Hkeys : forall k',
            In k' (map fst [("HOME", "/root"); ("ME", "biz")]%string) ->
            pct_free k').
  { cbn. intros k' [<-|[<-|[]]]; reflexivity. }
  assert (Hin : In ("ME", "biz")%string
                  [("HOME", "/root"); ("ME", "biz")]%string)
    by (right; left; reflexivity).
  split; [repeat split; try assumption; reflexivity|].
  apply (populate_with_env_substitutes
           [("HOME", "/root"); ("ME", "biz")]%string "ME" "biz" "foo " " bar"
           Hnd Hkeys Hin); reflexivity.
Defined.

Lemma populate_with_env_unmatched_witness :
  ((forall k', In k' (map fst [("ME", "biz")]%string) -> pct_free k') /\
   ~ In "bar"%string (map fst [("ME", "biz")]%string) /\
   "bar"%string <> ""%string /\
   all_word "bar" = true /\ pct_free "foo " /\ pct_free "") /\
  populate_with_env [("ME", "biz")]%string
    ("foo " ++ token_of "bar" ++ "")%string = None.
Proof.
  assert (Hkeys : forall k',
            In k' (map fst [("ME", "biz")]%string) -> pct_free k').
  { cbn. intros k' [<-|[]]; reflexivity. }
  assert (Hnot : ~ In "bar"%string (map fst [("ME", "biz")]%string)).
  { cbn. intros [E|[]]; discriminate E. }
  assert (Hne : "bar"%string <> ""%string) by discriminate.
  split; [repeat split; try assumption; reflexivity|].
  apply (populate_with_env_unmatched [("ME", "biz")]%string
           "bar" "foo " "" Hkeys Hnot Hne); reflexivity.
Defined.

(** The example of the docstring of [populate_with_env]: with [ME=biz]
    and no [bar], ['foo %ME% %bar%'] is not returned as ['foo biz %bar%'];
    the token left makes the function raise. *)
Lemma populate_with_env_docstring_example :
  populate_with_env [("ME", "biz")]%string "foo %ME% %bar%" = None /\
  populate_with_env [("ME", "biz"); ("bar", "x")]%string "foo %ME% %bar%" =
    Some "foo biz x"%string.
Proof. split; reflexivity. Qed.

Lemma flaky_world_after (n : nat) (e : PyExc) (final : Outcome)
    (a : list PyVal) (k : list (string * PyVal)) (j : nat) :
  forall v, world_after j (flaky n e final) a k v = (j + v)%nat.
Proof.
  induction j as [|j IH]; intros v; [reflexivity|].
  cbn [world_after]. rewrite IH. unfold flaky. cbn [snd]. lia.
Qed.

Lemma flaky_fst (n : nat) (e : PyExc) (final : Outcome)
    (a : list PyVal) (k : list (string * PyVal)) (v : nat) :
  fst (flaky n e final a k v) = if (v <? n)%nat then Raises e else final.
Proof. reflexivity. Qed.

(** A callable that raises a throttling error on its first [n] attempts
    and not after settles within any fuel above [n]. *)
Lemma flaky_settles (n fuel : nat) (strings : list string) (e : PyExc)
    (final : Outcome) (a : list PyVal) (k : list (string * PyVal))
    (w : nat) :
  (n < fuel)%nat ->
  is_throttling strings e = true ->
  throttled strings final = false ->
  fatal final = false ->
  settles_within fuel strings (flaky n e final) a k w.
Proof.
  intros Hn He Hf Hx. destruct (Nat.ltb_spec w n) as [Hlt|Hge].
  - exists (n - w)%nat. split; [lia|]. split.
    + intros i Hi. rewrite flaky_world_after, flaky_fst.
      destruct (Nat.ltb_spec (i + w) n); [exact He|lia].
    + rewrite flaky_world_after, flaky_fst.
      destruct (Nat.ltb_spec (n - w + w) n); [lia|split; assumption].
  - exists 0%nat. split; [lia|]. split; [intros i Hi; lia|].
    cbn [world_after]. rewrite flaky_fst.
    destruct (Nat.ltb_spec w n); [lia|split; assumption].
Qed.

Lemma always_settles (fuel : nat) (strings : list string) (o : Outcome)
    (a : list PyVal) (k : list (string * PyVal)) (w : nat) :
  (0 < fuel)%nat ->
  throttled strings o = false ->
  fatal o = false ->
  settles_within fuel strings (always o) a k w.
Proof.
  intros Hn Hf Hx. exists 0%nat. split; [exact Hn|].
  split; [intros i Hi; lia|]. cbn [world_after]. unfold always.
  rewrite flaky_fst. split; assumption.
Qed.

Lemma two_queued_settle :
  forall entry, In entry (_queue two_queued) ->
  forall w', settles_within 3 (boto2_throttle_strings __init__)
               (api_function entry) (args entry) (kwargs entry) w'.
Proof.
  intros entry [<-|[<-|[]]] w'; cbn [api_function args kwargs].
  - apply flaky_settles; [lia|reflexivity|reflexivity|reflexivity].
  - apply always_settles; [lia|reflexivity|reflexivity].
Qed.

Lemma sample_schedule_settle :
  forall entry, In entry (submissions 0 sample_schedule) ->
  forall w', settles_within 3 (boto2_throttle_strings __init__)
               (api_function entry) (args entry) (kwargs entry) w'.
Proof.
  intros entry [<-|[<-|[<-|[]]]] w'; cbn [api_function args kwargs].
  - apply flaky_settles; [lia|reflexivity|reflexivity|reflexivity].
  - apply always_settles; [lia|reflexivity|reflexivity].
  - apply always_settles; [lia|reflexivity|reflexivity].
Qed.


Lemma _process_queue_drains_witness :
  (run 3 [ACall throttled_twice [] [];
          ACall (always (Raises access_denied)) [] []]
     (new_machine 0%nat) = Some two_queued /\
   forall entry, In entry (_queue two_queued) ->
     forall w', settles_within 3 (boto2_throttle_strings __init__)
                  (api_function entry) (args entry) (kwargs entry) w') /\
  exists m',
    _process_queue (length (_queue two_queued)) 3 two_queued = Some m' /\
    _queue m' = [] /\
    map fst (delivered (trace m')) =
      map fst (delivered (trace two_queued)) ++
      map result_queue (_queue two_queued) /\
    _process_queue_turn 3 m' = Some m'.
Proof.
  split; [split; [reflexivity|exact two_queued_settle]|].
  apply (_process_queue_drains nat 3
           [ACall throttled_twice [] [];
            ACall (always (Raises access_denied)) [] []] 0%nat two_queued);
    [reflexivity|exact two_queued_settle].
Defined.
